(** * The trace-store exporter of genkit (go/genkit/trace_store_exporter.go)

    A shallow embedding of the exporter that turns finished OpenTelemetry
    spans into per-trace documents and hands them to a [TraceStore], with
    the properties of its conversion, assembly and export loop. *)

From Stdlib Require Import ZArith String Ascii List Lia.
From Stdlib.Strings Require Import Byte.
From stdpp Require Import gmap strings list fin_maps vector countable.

Local Open Scope string_scope.
Local Open Scope list_scope.
Local Open Scope Z_scope.

(** ** Go values shared by the packages below *)

(** Go's [error] interface. [errors_New] is [errors.New]; the two context
    errors are the values a [context.Context] reports; [nil] is [None] of
    [option error]. *)
Inductive error : Type :=
  | errors_New (text : string)
  | context_Canceled
  | context_DeadlineExceeded.

#[global] Instance error_eq_dec : EqDecision error.
Proof. solve_decision. Defined.

(** A Go function returning a pointer and an [error]: either the value or
    the error (the pointer is [nil] exactly when the error is not). *)
Inductive result (A : Type) : Type :=
  | Ok (a : A)
  | Err (e : error).
Arguments Ok {A} a.
Arguments Err {A} e.

#[global] Instance byte_eq_dec : EqDecision byte := Byte.byte_eq_dec.
#[global] Instance byte_countable : Countable byte :=
  inj_countable Byte.to_N Byte.of_N Byte.of_to_N.

(** The list of a fixed-size array back into the array; it gives the keys of
    the maps below an encoding that computes. *)
Fixpoint list_to_vec_opt {A} (n : nat) (l : list A) : option (vec A n) :=
  match n, l with
  | O, [] => Some [#]
  | S n', x :: l' => (λ v, x ::: v) <$> list_to_vec_opt n' l'
  | _, _ => None
  end.

(** [encoding/hex]: two lower-case digits per byte. *)
Module hex.
Definition hextable (n : N) : ascii :=
  match n with
  | 0 => "0" | 1 => "1" | 2 => "2" | 3 => "3" | 4 => "4" | 5 => "5"
  | 6 => "6" | 7 => "7" | 8 => "8" | 9 => "9" | 10 => "a" | 11 => "b"
  | 12 => "c" | 13 => "d" | 14 => "e" | _ => "f"
  end%N%char.

Fixpoint EncodeToString (src : list byte) : string :=
  match src with
  | [] => ""
  | v :: rest =>
      String (hextable (N.shiftr (Byte.to_N v) 4))
        (String (hextable (N.land (Byte.to_N v) 15)) (EncodeToString rest))
  end.
End hex.

(** A point in time ([time.Time]), as nanoseconds since the Unix epoch. *)
Definition Time : Type := Z.

(** ** go.opentelemetry.io/otel/attribute *)

(** The dynamic value ([any]) that [Value.AsInterface] hands back: the native
    Go value of the attribute. A float64 is carried as its IEEE-754 bit
    pattern; the exporter never computes with it. *)
Inductive any : Type :=
  | any_bool (b : bool)
  | any_int64 (i : Z)
  | any_float64 (bits : Z)
  | any_string (s : string)
  | any_bools (l : list bool)
  | any_int64s (l : list Z)
  | any_float64s (l : list Z)
  | any_strings (l : list string)
  | any_unknownValueType.

#[global] Instance any_eq_dec : EqDecision any.
Proof. solve_decision. Defined.

Module attribute.
Inductive Value : Type :=
  | INVALID
  | BOOL (b : bool)
  | INT64 (i : Z)
  | FLOAT64 (bits : Z)
  | STRING (s : string)
  | BOOLSLICE (l : list bool)
  | INT64SLICE (l : list Z)
  | FLOAT64SLICE (l : list Z)
  | STRINGSLICE (l : list string).

Definition AsInterface (v : Value) : any :=
  match v with
  | BOOL b => any_bool b
  | BOOLSLICE l => any_bools l
  | INT64 i => any_int64 i
  | INT64SLICE l => any_int64s l
  | FLOAT64 f => any_float64 f
  | FLOAT64SLICE l => any_float64s l
  | STRING s => any_string s
  | STRINGSLICE l => any_strings l
  | INVALID => any_unknownValueType
  end.

Record KeyValue : Type := { Key : string; Val : Value }.
End attribute.

(** ** go.opentelemetry.io/otel/trace *)

Module trace.
(** [type TraceID [16]byte] and [type SpanID [8]byte]. *)
Definition TraceID : Type := vec byte 16.
Definition SpanID : Type := vec byte 8.

#[global] Instance TraceID_countable : Countable TraceID.
Proof.
  refine (inj_countable vec_to_list (list_to_vec_opt 16) _).
  unfold TraceID. generalize 16%nat.
  intros n v. induction v as [|x n v IH]; simpl; [done|]. by rewrite IH.
Defined.

Definition nilSpanID : SpanID := vreplicate 8 x00.

Definition TraceID_String (t : TraceID) : string :=
  hex.EncodeToString (vec_to_list t).

(** [!bytes.Equal(s[:], nilSpanID[:])] *)
Definition SpanID_IsValid (s : SpanID) : bool :=
  negb (bool_decide (vec_to_list s = vec_to_list nilSpanID)).

Definition SpanID_String (s : SpanID) : string :=
  hex.EncodeToString (vec_to_list s).

Record SpanContext : Type := {
  traceID : TraceID;
  spanID : SpanID;
  traceFlags : byte;
  remote : bool
}.

Definition IsRemote (sc : SpanContext) : bool := remote sc.
Definition HasSpanID (sc : SpanContext) : bool := SpanID_IsValid (spanID sc).

Inductive SpanKind : Type :=
  | SpanKindUnspecified
  | SpanKindInternal
  | SpanKindServer
  | SpanKindClient
  | SpanKindProducer
  | SpanKindConsumer.

Definition SpanKind_String (sk : SpanKind) : string :=
  match sk with
  | SpanKindInternal => "internal"
  | SpanKindServer => "server"
  | SpanKindClient => "client"
  | SpanKindProducer => "producer"
  | SpanKindConsumer => "consumer"
  | SpanKindUnspecified => "unspecified"
  end.
End trace.

(** ** go.opentelemetry.io/otel/sdk/trace *)

Module sdktrace.
Record Link : Type := {
  Link_SpanContext : trace.SpanContext;
  Link_Attributes : list attribute.KeyValue;
  Link_DroppedAttributeCount : Z
}.

Record Event : Type := {
  Event_Name : string;
  Event_Attributes : list attribute.KeyValue;
  Event_Time : Time
}.

(** [Code] is a [codes.Code], an unsigned 32-bit number. *)
Record Status : Type := {
  Status_Code : Z;
  Status_Description : string
}.

Record Library : Type := {
  Library_Name : string;
  Library_Version : string;
  Library_SchemaURL : string
}.

(** What the exporter reads through the [ReadOnlySpan] interface: one
    field per method it calls. *)
Record ReadOnlySpan : Type := {
  Name : string;
  SpanContext : trace.SpanContext;
  Parent : trace.SpanContext;
  SpanKind : trace.SpanKind;
  StartTime : Time;
  EndTime : Time;
  Attributes : list attribute.KeyValue;
  Links : list Link;
  Events : list Event;
  Status_ : Status;
  InstrumentationLibrary : Library
}.
End sdktrace.

(** ** context *)

Module context.
(** A [context.Context] as the exporter can observe it. Time is the number
    of effects the export call has performed so far; the context is done
    from instant [t] on (never, when [done] is [None]). Once [Err] returns an
    error it returns that same error at every later instant, as the
    [context] package promises. *)
Record Context : Type := { done : option (nat * error) }.

Definition Err (ctx : Context) (now : nat) : option error :=
  match done ctx with
  | Some (t, e) => if decide (t ≤ now)%nat then Some e else None
  | None => None
  end.

Definition Background : Context := {| done := None |}.
End context.

(** ** package genkit: the stored types *)

(** Modelled from the spec: the declarations of [Microseconds], [SpanData],
    [TraceData] and the types of their fields are in files of the package
    that are not at hand; the fields are the persisted field names of the
    spec (section 6), and times are integers in microseconds. *)
Definition Microseconds : Type := Z.

Record SpanContext : Type := {
  SpanContext_TraceID : string;
  SpanContext_SpanID : string;
  SpanContext_IsRemote : bool;
  SpanContext_TraceFlags : Z
}.

Record Link : Type := {
  Link_SpanContext : SpanContext;
  Link_Attributes : gmap string any;
  Link_DroppedAttributesCount : Z
}.

Record annotation : Type := {
  annotation_Description : string;
  annotation_Attributes : gmap string any
}.

Record TimeEvent : Type := {
  TimeEvent_Time : Microseconds;
  TimeEvent_Annotation : annotation
}.

Record timeEvents : Type := { TimeEvent_ : list TimeEvent }.

Record Status : Type := {
  Status_Code : Z;
  Status_Description : string
}.

Record InstrumentationLibrary : Type := {
  InstrumentationLibrary_Name : string;
  InstrumentationLibrary_Version : string;
  InstrumentationLibrary_SchemaURL : string
}.

Record boolValue : Type := { Value : bool }.

(** Modelled from the spec: the declaration of [SpanData] is missing; its
    fields are the persisted fields of a span record (section 6) that
    [convertSpan] assigns. *)
Record SpanData : Type := {
  SpanData_SpanID : string;
  SpanData_TraceID : string;
  SpanData_ParentSpanID : string;
  SpanData_StartTime : Microseconds;
  SpanData_EndTime : Microseconds;
  SpanData_Attributes : gmap string any;
  SpanData_DisplayName : string;
  SpanData_Links : list Link;
  SpanData_InstrumentationLibrary : InstrumentationLibrary;
  SpanData_SpanKind : string;
  SpanData_SameProcessAsParentSpan : boolValue;
  SpanData_Status : Status;
  SpanData_TimeEvents : timeEvents
}.

(** Modelled from the spec: the declaration of [TraceData] is missing; its
    fields are those of the trace document (section 6): the header fields and
    the mapping from span id to span record. *)
Record TraceData : Type := {
  DisplayName : string;
  StartTime : Microseconds;
  EndTime : Microseconds;
  Spans : gmap string SpanData
}.

(** The helper [timeToMicroseconds] of the package is not at hand either: the
    conversion of a [time.Time] to [Microseconds] is a parameter of the
    development. *)
Class TimeConversion : Type := timeToMicroseconds : Time → Microseconds.

(** The [TraceStore] interface, as far as the exporter uses it: [Save] takes
    the state of the store to its next state and answers [nil] or an error. *)
Class TraceStore (Store : Type) : Type :=
  Save : Store → context.Context → string → TraceData → Store * option error.

(** ** The conversions *)

Definition attributesToMap (attrs : list attribute.KeyValue) : gmap string any :=
  foldl (λ m a, <[attribute.Key a := attribute.AsInterface (attribute.Val a)]> m)
        ∅ attrs.

Definition convertSpanContext (sc : trace.SpanContext) : SpanContext :=
  {| SpanContext_TraceID := trace.TraceID_String (trace.traceID sc);
     SpanContext_SpanID := trace.SpanID_String (trace.spanID sc);
     SpanContext_IsRemote := trace.IsRemote sc;
     SpanContext_TraceFlags := Z.of_N (Byte.to_N (trace.traceFlags sc)) |}.

Definition convertLinks (links : list sdktrace.Link) : list Link :=
  foldl (λ cls l,
           cls ++ [ {| Link_SpanContext := convertSpanContext (sdktrace.Link_SpanContext l);
                       Link_Attributes := attributesToMap (sdktrace.Link_Attributes l);
                       Link_DroppedAttributesCount := sdktrace.Link_DroppedAttributeCount l |} ])
        [] links.

(** [uint32(s.Code)] converts a [codes.Code], itself a [uint32]: the number is
    kept. *)
Definition convertStatus (s : sdktrace.Status) : Status :=
  {| Status_Code := sdktrace.Status_Code s;
     Status_Description := sdktrace.Status_Description s |}.

Definition convertLibrary (l : sdktrace.Library) : InstrumentationLibrary :=
  {| InstrumentationLibrary_Name := sdktrace.Library_Name l;
     InstrumentationLibrary_Version := sdktrace.Library_Version l;
     InstrumentationLibrary_SchemaURL := sdktrace.Library_SchemaURL l |}.

Section Conversion.
Context `{TimeConversion}.

Definition convertEvents (evs : list sdktrace.Event) : list TimeEvent :=
  foldl (λ tes e,
           tes ++ [ {| TimeEvent_Time := timeToMicroseconds (sdktrace.Event_Time e);
                       TimeEvent_Annotation :=
                         {| annotation_Description := sdktrace.Event_Name e;
                            annotation_Attributes :=
                              attributesToMap (sdktrace.Event_Attributes e) |} |} ])
        [] evs.

(** [ParentSpanID] starts as the empty string of the zero [SpanData] and is
    assigned only under [p.HasSpanID()]. *)
Definition convertSpan (span : sdktrace.ReadOnlySpan) : SpanData :=
  let sc := sdktrace.SpanContext span in
  let p := sdktrace.Parent span in
  {| SpanData_SpanID := trace.SpanID_String (trace.spanID sc);
     SpanData_TraceID := trace.TraceID_String (trace.traceID sc);
     SpanData_ParentSpanID :=
       if trace.HasSpanID p then trace.SpanID_String (trace.spanID p) else "";
     SpanData_StartTime := timeToMicroseconds (sdktrace.StartTime span);
     SpanData_EndTime := timeToMicroseconds (sdktrace.EndTime span);
     SpanData_Attributes := attributesToMap (sdktrace.Attributes span);
     SpanData_DisplayName := sdktrace.Name span;
     SpanData_Links := convertLinks (sdktrace.Links span);
     SpanData_InstrumentationLibrary :=
       convertLibrary (sdktrace.InstrumentationLibrary span);
     SpanData_SpanKind := trace.SpanKind_String (sdktrace.SpanKind span);
     SpanData_SameProcessAsParentSpan := {| Value := negb (trace.IsRemote sc) |};
     SpanData_Status := convertStatus (sdktrace.Status_ span);
     SpanData_TimeEvents := {| TimeEvent_ := convertEvents (sdktrace.Events span) |} |}.

(** The error of [convertTrace]. *)
Definition MultipleRootSpans : error := errors_New "more than one parentless span".

(** The document [convertTrace] starts from: zero header, empty [Spans]. *)
Definition emptyTraceData : TraceData :=
  {| DisplayName := ""; StartTime := 0; EndTime := 0; Spans := ∅ |}.

(** The body of the loop of [convertTrace], run on the spans that are left
    with the document built so far. *)
Fixpoint convertTraceLoop (spans : list sdktrace.ReadOnlySpan) (td : TraceData)
  : result TraceData :=
  match spans with
  | [] => Ok td
  | span :: rest =>
      let cspan := convertSpan span in
      if decide (SpanData_ParentSpanID cspan = "") then
        if decide (DisplayName td ≠ "") then Err MultipleRootSpans
        else
          convertTraceLoop rest
            {| DisplayName := SpanData_DisplayName cspan;
               StartTime := SpanData_StartTime cspan;
               EndTime := SpanData_EndTime cspan;
               Spans := <[SpanData_SpanID cspan := cspan]> (Spans td) |}
      else
        convertTraceLoop rest
          {| DisplayName := DisplayName td;
             StartTime := StartTime td;
             EndTime := EndTime td;
             Spans := <[SpanData_SpanID cspan := cspan]> (Spans td) |}
  end.

Definition convertTrace (spans : list sdktrace.ReadOnlySpan) : result TraceData :=
  convertTraceLoop spans emptyTraceData.

(** A span is parentless (a root) when its converted parent id is empty. *)
Definition parentless (span : sdktrace.ReadOnlySpan) : Prop :=
  SpanData_ParentSpanID (convertSpan span) = "".

#[global] Instance parentless_dec span : Decision (parentless span).
Proof. unfold parentless. apply _. Defined.

(** The key under which [convertTrace] stores a span. *)
Definition spanKey (span : sdktrace.ReadOnlySpan) : string :=
  SpanData_SpanID (convertSpan span).

(** What an iteration of [convertTrace] does to the document for a span that
    has a parent. *)
Definition withSpan (td : TraceData) (span : sdktrace.ReadOnlySpan) : TraceData :=
  {| DisplayName := DisplayName td; StartTime := StartTime td; EndTime := EndTime td;
     Spans := <[spanKey span := convertSpan span]> (Spans td) |}.
End Conversion.

(** Both maps of the exporter, the attributes and [Spans], are filled by a
    loop of assignments [m[key a] = val a] over a list. *)
Section Fill.
Context {K : Type} `{Countable K} {A V : Type}.
Variables (key : A → K) (val : A → V).

Definition fill (m : gmap K V) (l : list A) : gmap K V :=
  foldl (λ m a, <[key a := val a]> m) m l.
End Fill.

(** ** The exporter *)

(** What an export call does that can be seen from outside, in the order it
    does it: a call of [ctx.Err()], the assembly of the group of a trace id,
    a call of the store's [Save]. *)
Inductive Event : Type :=
  | ECtxErr
  | EConvertTrace (tid : trace.TraceID)
  | ESave (traceID : string) (td : TraceData).

(** The state an export call runs in: the store of the exporter and the
    effects performed so far. *)
Record World (Store : Type) : Type := { store : Store; log : list Event }.
Arguments store {Store} w.
Arguments log {Store} w.

Definition record {Store} (w : World Store) (ev : Event) : World Store :=
  {| store := store w; log := log w ++ [ev] |}.

(** [ctx.Err()], at the instant the world has reached. *)
Definition ctxErr {Store} (ctx : context.Context) (w : World Store)
  : World Store * option error :=
  (record w ECtxErr, context.Err ctx (length (log w))).

(** [spansByTrace[tid] = append(spansByTrace[tid], span)], for every span. *)
Definition groupByTrace (spans : list sdktrace.ReadOnlySpan)
  : gmap trace.TraceID (list sdktrace.ReadOnlySpan) :=
  foldl (λ spansByTrace span,
           let tid := trace.traceID (sdktrace.SpanContext span) in
           <[tid := default [] (spansByTrace !! tid) ++ [span]]> spansByTrace)
        ∅ spans.

(** Go does not fix the order in which [range] visits a map: [order] is an
    order of visit of [m] when it lists every key of [m] once. *)
Definition rangeOrder {V} (m : gmap trace.TraceID V) (order : list trace.TraceID) : Prop :=
  order ≡ₚ (map_to_list m).*1.

#[global] Instance rangeOrder_dec {V} (m : gmap trace.TraceID V) order :
  Decision (rangeOrder m order).
Proof. unfold rangeOrder. apply _. Defined.

Section Exporter.
Context `{TimeConversion} {Store : Type} `{TraceStore Store}.

(** The second loop of [ExportSpans], over the keys of [spansByTrace] in
    the order [order] of the visit; a trace id of [order] that is no key of
    the map is passed over. [return ctx.Err()] asks the context a second
    time. *)
Fixpoint exportLoop (ctx : context.Context)
    (spansByTrace : gmap trace.TraceID (list sdktrace.ReadOnlySpan))
    (order : list trace.TraceID) (w : World Store)
  : World Store * option error :=
  match order with
  | [] => (w, None)
  | tid :: rest =>
      match spansByTrace !! tid with
      | None => exportLoop ctx spansByTrace rest w
      | Some spans =>
          let '(w1, e) := ctxErr ctx w in
          match e with
          | Some _ => ctxErr ctx w1
          | None =>
              let w2 := record w1 (EConvertTrace tid) in
              match convertTrace spans with
              | Err err => (w2, Some err)
              | Ok td =>
                  let '(s', e') := Save (store w2) ctx (trace.TraceID_String tid) td in
                  let w3 := {| store := s';
                               log := log w2 ++ [ESave (trace.TraceID_String tid) td] |} in
                  match e' with
                  | Some err => (w3, Some err)
                  | None => exportLoop ctx spansByTrace rest w3
                  end
              end
          end
      end
  end.

Definition ExportSpans (ctx : context.Context) (spans : list sdktrace.ReadOnlySpan)
    (order : list trace.TraceID) (w : World Store)
  : World Store * option error :=
  exportLoop ctx (groupByTrace spans) order w.

Definition Shutdown (ctx : context.Context) (w : World Store)
  : World Store * option error :=
  (w, None).
End Exporter.

(** The effects of one group that is processed to its end. *)
Definition groupEvents (tid : trace.TraceID) (td : TraceData) : list Event :=
  [ECtxErr; EConvertTrace tid; ESave (trace.TraceID_String tid) td].

(** The effects of the visit of [tid] in a call that goes on after it: none
    when [tid] is no key of the map, and none when its group is not
    assembled. *)
Definition visitEvents `{TimeConversion}
    (spansByTrace : gmap trace.TraceID (list sdktrace.ReadOnlySpan))
    (tid : trace.TraceID) : list Event :=
  match spansByTrace !! tid with
  | Some spans =>
      match convertTrace spans with
      | Ok td => groupEvents tid td
      | Err _ => []
      end
  | None => []
  end.

(** The number of calls of [ctx.Err()] among the effects. *)
Definition isCtxErr (ev : Event) : bool :=
  match ev with ECtxErr => true | _ => false end.

Definition countCtxErr (evs : list Event) : nat :=
  length (List.filter isCtxErr evs).

(** ** A store in memory and sample spans *)

(** A store that keeps the documents in a map and refuses the trace ids of
    [refused]. *)
Record memStore : Type := {
  docs : gmap string TraceData;
  refused : list string
}.

#[global] Instance memStore_TraceStore : TraceStore memStore :=
  λ s _ traceID td,
    if decide (traceID ∈ refused s) then (s, Some (errors_New "save refused"))
    else ({| docs := <[traceID := td]> (docs s); refused := refused s |}, None).

(** For the samples, a time in nanoseconds is cut to whole microseconds. *)
Definition sampleTimeConversion : TimeConversion := λ t, t / 1000.

Module sample.
Definition T1 : trace.TraceID := vreplicate 16 x01.
Definition T2 : trace.TraceID := vreplicate 16 x02.
Definition idA : trace.SpanID := vreplicate 8 x0a.
Definition idB : trace.SpanID := vreplicate 8 x0b.
Definition idC : trace.SpanID := vreplicate 8 x0c.

Definition ctxOf (t : trace.TraceID) (s : trace.SpanID) (r : bool) : trace.SpanContext :=
  {| trace.traceID := t; trace.spanID := s; trace.traceFlags := x01; trace.remote := r |}.

Definition noParent : trace.SpanContext :=
  {| trace.traceID := vreplicate 16 x00; trace.spanID := trace.nilSpanID;
     trace.traceFlags := x00; trace.remote := false |}.

Definition mk (name : string) (t : trace.TraceID) (s : trace.SpanID)
    (parent : trace.SpanContext) (start stop : Time) : sdktrace.ReadOnlySpan :=
  {| sdktrace.Name := name;
     sdktrace.SpanContext := ctxOf t s false;
     sdktrace.Parent := parent;
     sdktrace.SpanKind := trace.SpanKindInternal;
     sdktrace.StartTime := start;
     sdktrace.EndTime := stop;
     sdktrace.Attributes :=
       [ {| attribute.Key := "k"; attribute.Val := attribute.INT64 1 |};
         {| attribute.Key := "k"; attribute.Val := attribute.STRING "v" |} ];
     sdktrace.Links := [];
     sdktrace.Events := [];
     sdktrace.Status_ := {| sdktrace.Status_Code := 0; sdktrace.Status_Description := "" |};
     sdktrace.InstrumentationLibrary :=
       {| sdktrace.Library_Name := "genkit"; sdktrace.Library_Version := "";
          sdktrace.Library_SchemaURL := "" |} |}.

(** A root and a child of it. *)
Definition rootA : sdktrace.ReadOnlySpan := mk "A" T1 idA noParent 5000 9000.
Definition childB : sdktrace.ReadOnlySpan := mk "B" T1 idB (ctxOf T1 idA false) 6000 7000.
(** A second parentless span of the same trace. *)
Definition rootB : sdktrace.ReadOnlySpan := mk "B" T1 idB noParent 6000 7000.
(** Parentless spans without a name. *)
Definition unnamedA : sdktrace.ReadOnlySpan := mk "" T1 idA noParent 5000 9000.
Definition unnamedB : sdktrace.ReadOnlySpan := mk "" T1 idB noParent 6000 7000.
(** A child that reuses the span id of [childB]. *)
Definition childB' : sdktrace.ReadOnlySpan := mk "B2" T1 idB (ctxOf T1 idA false) 7000 8000.
(** Two parentless spans of a second trace. *)
Definition rootC : sdktrace.ReadOnlySpan := mk "C" T2 idC noParent 1000 2000.
Definition rootD : sdktrace.ReadOnlySpan := mk "D" T2 idA noParent 1000 2000.

Definition emptyStore : World memStore :=
  {| store := {| docs := ∅; refused := [] |}; log := [] |}.
Definition refusing (ids : list string) : World memStore :=
  {| store := {| docs := ∅; refused := ids |}; log := [] |}.

(** Groups of one trace. *)
Definition unnamedRoots : list sdktrace.ReadOnlySpan := [unnamedA; unnamedB].
Definition rootAndChild : list sdktrace.ReadOnlySpan := [rootA; childB].
Definition orphan : list sdktrace.ReadOnlySpan := [childB].
Definition reusedID : list sdktrace.ReadOnlySpan := [rootA; childB; childB'].

(** Batches of two traces: in [batchD] the second trace has two named roots,
    in [batchE] both traces are well formed. *)
Definition batchD : list sdktrace.ReadOnlySpan := [rootA; rootC; childB; rootD].
Definition batchE : list sdktrace.ReadOnlySpan := [rootA; childB; rootC].

(** A context that is cancelled at instant [t]. *)
Definition cancelledAt (t : nat) : context.Context :=
  {| context.done := Some (t, context_Canceled) |}.
End sample.


(** ** Further definitions, for the properties of the whole exporter *)

(** The link and the event that one iteration of the loops of
    [convertLinks] and [convertEvents] appends. *)
Definition convertLink (l : sdktrace.Link) : Link :=
  {| Link_SpanContext := convertSpanContext (sdktrace.Link_SpanContext l);
     Link_Attributes := attributesToMap (sdktrace.Link_Attributes l);
     Link_DroppedAttributesCount := sdktrace.Link_DroppedAttributeCount l |}.

Definition convertEvent `{TimeConversion} (e : sdktrace.Event) : TimeEvent :=
  {| TimeEvent_Time := timeToMicroseconds (sdktrace.Event_Time e);
     TimeEvent_Annotation :=
       {| annotation_Description := sdktrace.Event_Name e;
          annotation_Attributes := attributesToMap (sdktrace.Event_Attributes e) |} |}.

(** The calls of [Save] among the effects: trace id and document, in the
    order of the calls. *)
Definition saves (evs : list Event) : list (string * TraceData) :=
  omap (λ ev, match ev with ESave traceID td => Some (traceID, td) | _ => None end) evs.

(** The store after the calls [calls] of [Save], whatever they answer. *)
Definition replay `{TraceStore Store} (ctx : context.Context) (s : Store)
    (calls : list (string * TraceData)) : Store :=
  foldl (λ s c, (Save s ctx c.1 c.2).1) s calls.

(** The value of a digit of [hex.hextable], and the bytes of a string of such
    digits: the way back from [hex.EncodeToString]. *)
Definition hexValue (c : ascii) : option N :=
  List.find (λ n, bool_decide (hex.hextable n = c)) (N.of_nat <$> seq 0 16).

Fixpoint hexBytes (s : string) : option (list byte) :=
  match s with
  | EmptyString => Some []
  | String hi (String lo rest) =>
      h ← hexValue hi; l ← hexValue lo;
      v ← Byte.of_N (16 * h + l);
      vs ← hexBytes rest;
      Some (v :: vs)
  | String _ EmptyString => None
  end.

(** ** The Google AI model adapter (providers/src/models/google-ai.ts) *)

Module googleai.

(** A call that returns a value or throws [new Error(message)]. *)
Inductive outcome (A : Type) : Type :=
  | Returns (a : A)
  | Throws (message : string).
Arguments Returns {A} a.
Arguments Throws {A} message.

(** [array.map(f)] with a callback that may throw: the elements are converted
    from the first on, and the first error ends the call. *)
Fixpoint mapArray {A B} (f : A → outcome B) (array : list A) : outcome (list B) :=
  match array with
  | [] => Returns []
  | x :: rest =>
      match f x with
      | Throws message => Throws message
      | Returns y =>
          match mapArray f rest with
          | Throws message => Throws message
          | Returns ys => Returns (y :: ys)
          end
      end
  end.

(** A string property that may be missing is truthy when it is there and is
    not the empty string. *)
Definition truthy (s : option string) : bool :=
  match s with
  | Some EmptyString | None => false
  | Some _ => true
  end.

(** What the adapter passes on without reading it: the numbers of the
    generation settings, the properties of a part other than [text], and the
    other data of a candidate and of a response. *)
Class Payloads : Type := {
  Num : Type;
  PartData : Type;
  GeminiPartData : Type;
  SafetyRatings : Type;
  CitationMetadata : Type;
  ResponseData : Type
}.

Section Adapter.
Context `{Payloads}.

(** What the adapter reads of a [Part] of a message: its [text], and the
    other properties the object may have. *)
Record Part : Type := { text : option string; otherProperties : option PartData }.

Record GeminiPart : Type := {
  gemini_text : option string;
  gemini_otherProperties : option GeminiPartData
}.

Record MessageData : Type := { role : string; content : list Part }.

Record GeminiMessage : Type := { gemini_role : string; parts : list GeminiPart }.

Record GeminiCandidate : Type := {
  candidate_index : Num;
  candidate_content : GeminiMessage;
  candidate_finishReason : option string;
  candidate_finishMessage : option string;
  candidate_safetyRatings : option SafetyRatings;
  candidate_citationMetadata : option CitationMetadata
}.

Record CandidateCustom : Type := {
  safetyRatings : option SafetyRatings;
  citationMetadata : option CitationMetadata
}.

Record CandidateData : Type := {
  index : Num;
  message : MessageData;
  finishReason : string;
  finishMessage : option string;
  custom : CandidateCustom
}.

Definition toGeminiRole (role : string) : outcome string :=
  if decide (role = "user") then Returns "user"
  else if decide (role = "model") then Returns "model"
  else if decide (role = "system") then Throws "system role is not supported"
  else if decide (role = "tool") then Returns "function"
  else Returns "user".

Definition toGeminiPart (part : Part) : outcome GeminiPart :=
  if truthy (text part)
  then Returns {| gemini_text := text part; gemini_otherProperties := None |}
  else Throws "Only support text for the moment.".

Definition fromGeminiPart (part : GeminiPart) : outcome Part :=
  if truthy (gemini_text part)
  then Returns {| text := gemini_text part; otherProperties := None |}
  else Throws "Only support text for the moment.".

(** The Gemini part that [toGeminiPart] returns for a part with a text, and
    the role that [toGeminiRole] returns for a role it accepts. *)
Definition textPart (part : Part) : GeminiPart :=
  {| gemini_text := text part; gemini_otherProperties := None |}.

Definition geminiRoleOf (role : string) : string :=
  if decide (role = "model") then "model"
  else if decide (role = "tool") then "function"
  else "user".

(** The properties of the object literal are computed in the order they are
    written: the role first. *)
Definition toGeminiMessage (message : MessageData) : outcome GeminiMessage :=
  match toGeminiRole (role message) with
  | Throws message => Throws message
  | Returns r =>
      match mapArray toGeminiPart (content message) with
      | Throws message => Throws message
      | Returns ps => Returns {| gemini_role := r; parts := ps |}
      end
  end.

Definition fromGeminiFinishReason (reason : option string) : string :=
  if negb (truthy reason) then "unknown"
  else if decide (reason = Some "STOP") then "stop"
  else if decide (reason = Some "MAX_TOKENS") then "length"
  else if decide (reason = Some "SAFETY") then "blocked"
  else if decide (reason = Some "RECITATION") then "other"
  else "unknown".

Definition fromGeminiCandidate (candidate : GeminiCandidate) : outcome CandidateData :=
  match mapArray fromGeminiPart (parts (candidate_content candidate)) with
  | Throws message => Throws message
  | Returns ps =>
      Returns {| index := candidate_index candidate;
                 message := {| role := "model"; content := ps |};
                 finishReason := fromGeminiFinishReason (candidate_finishReason candidate);
                 finishMessage := candidate_finishMessage candidate;
                 custom :=
                   {| safetyRatings := candidate_safetyRatings candidate;
                      citationMetadata := candidate_citationMetadata candidate |} |}
  end.

(** The request of a generation, the parameters of a chat, and the answer of
    the Gemini client. *)
Record RequestConfig : Type := {
  temperature : option Num;
  maxOutputTokens : option Num;
  topK : option Num;
  topP : option Num;
  stopSequences : option (list string)
}.

Record GenerateRequest : Type := {
  messages : list MessageData;
  candidates : option Num;
  config : option RequestConfig
}.

Record GenerationConfig : Type := {
  gemini_candidateCount : option Num;
  gemini_temperature : option Num;
  gemini_maxOutputTokens : option Num;
  gemini_topK : option Num;
  gemini_topP : option Num;
  gemini_stopSequences : option (list string)
}.

Record ChatParams : Type := {
  history : list GeminiMessage;
  generationConfig : GenerationConfig
}.

Record GeminiResponse : Type := {
  response_candidates : option (list GeminiCandidate);
  response_data : ResponseData
}.

Record GenerateResponse : Type := {
  response : list CandidateData;
  response_custom : GeminiResponse
}.

(** The [generationConfig] of the chat: [request.candidates], and
    [request.config?.temperature] and the like. *)
Definition generationConfigOf (request : GenerateRequest) : GenerationConfig :=
  {| gemini_candidateCount := candidates request;
     gemini_temperature := config request ≫= temperature;
     gemini_maxOutputTokens := config request ≫= maxOutputTokens;
     gemini_topK := config request ≫= topK;
     gemini_topP := config request ≫= topP;
     gemini_stopSequences := config request ≫= stopSequences |}.

(** The function that [googleAIModel] hands to [modelAction]. The client is
    [client.startChat(params).sendMessage(parts)], awaited: it answers or
    rejects. The last message is there whenever the list is not empty. *)
Definition generate
    (client : ChatParams → list GeminiPart → outcome GeminiResponse)
    (request : GenerateRequest) : outcome GenerateResponse :=
  match mapArray toGeminiMessage (messages request) with
  | Throws message => Throws message
  | Returns geminiMessages =>
      let n := length geminiMessages in
      if decide (n = 0%nat) then Throws "No messages provided."
      else
        match client {| history := take (n - 1) geminiMessages;
                        generationConfig := generationConfigOf request |}
                     (default [] (parts <$> geminiMessages !! (n - 1)%nat)) with
        | Throws message => Throws message
        | Returns result =>
            match response_candidates result with
            | None | Some [] => Throws "No valid candidates returned."
            | Some cs =>
                match mapArray fromGeminiCandidate cs with
                | Throws message => Throws message
                | Returns converted =>
                    Returns {| response := converted; response_custom := result |}
                end
            end
        end
  end.
End Adapter.
End googleai.

(** Sample requests and a client that answers one candidate repeating the
    parts it was sent. *)
Module googleai_sample.
Import googleai.

#[local] Instance payloads : Payloads :=
  {| Num := Z; PartData := unit; GeminiPartData := unit;
     SafetyRatings := unit; CitationMetadata := unit; ResponseData := unit |}.

Definition say (r t : string) : @MessageData payloads :=
  {| role := r; content := [ {| text := Some t; otherProperties := Some tt |} ] |}.

Definition conversation : list (@MessageData payloads) :=
  [say "user" "hello"; say "model" "hi"; say "tool" "42"].

Definition request : @GenerateRequest payloads :=
  {| messages := conversation; candidates := Some 1; config := None |}.

Definition echo (params : @ChatParams payloads) (sent : list (@GeminiPart payloads))
  : outcome (@GeminiResponse payloads) :=
  Returns {| response_candidates :=
               Some [ {| candidate_index := 0;
                         candidate_content := {| gemini_role := "model"; parts := sent |};
                         candidate_finishReason := Some "STOP";
                         candidate_finishMessage := None;
                         candidate_safetyRatings := None;
                         candidate_citationMetadata := None |} ];
             response_data := tt |}.
End googleai_sample.
(** * Properties *)

(** ** Maps filled by a loop of assignments *)

Section FillFacts.
Context {K : Type} `{Countable K} {A V : Type}.
Variables (key : A → K) (val : A → V).
Implicit Types (m : gmap K V) (l : list A).

Lemma fill_cons m a l :
  fill key val m (a :: l) = fill key val (<[key a := val a]> m) l.
Proof. reflexivity. Qed.

Lemma fill_app m l1 l2 : fill key val m (l1 ++ l2) = fill key val (fill key val m l1) l2.
Proof. apply foldl_app. Qed.

(** Keys that are not assigned keep what they had. *)
Lemma fill_lookup_other m l k :
  (∀ a, a ∈ l → key a ≠ k) → fill key val m l !! k = m !! k.
Proof.
  revert m. induction l as [|a l IH]; intros m Hl; [done|].
  rewrite fill_cons, IH.
  - apply lookup_insert_ne, Hl. left.
  - intros b Hb. apply Hl. by right.
Qed.

(** The last assignment to a key is the one that stays. *)
Lemma fill_lookup_last m l1 a l2 :
  (∀ b, b ∈ l2 → key b ≠ key a) →
  fill key val m (l1 ++ a :: l2) !! key a = Some (val a).
Proof.
  intros Hl2. rewrite fill_app, fill_cons.
  rewrite fill_lookup_other by done. apply lookup_insert_eq.
Qed.

Lemma fill_lookup_Some m l k v :
  fill key val m l !! k = Some v →
  m !! k = Some v ∨ ∃ a, a ∈ l ∧ key a = k ∧ v = val a.
Proof.
  revert m. induction l as [|a l IH]; intros m Hk; [by left|].
  rewrite fill_cons in Hk. apply IH in Hk as [Hk|(b & Hb & <- & ->)].
  - destruct (decide (key a = k)) as [<-|Hne].
    + rewrite lookup_insert_eq in Hk. right. exists a.
      split; [left|]. naive_solver.
    + rewrite lookup_insert_ne in Hk by done. by left.
  - right. exists b. split; [by right|done].
Qed.

Lemma fill_dom m l : dom (fill key val m l) = list_to_set (key <$> l) ∪ dom m.
Proof.
  revert m. induction l as [|a l IH]; intros m.
  - cbn. by rewrite (left_id_L ∅ (∪)).
  - rewrite fill_cons, IH, dom_insert_L. cbn.
    rewrite (assoc_L (∪)). f_equal. apply (comm_L (∪)).
Qed.

Lemma fill_lookup_is_Some m l a : a ∈ l → is_Some (fill key val m l !! key a).
Proof.
  intros Ha. apply elem_of_dom. rewrite fill_dom.
  apply elem_of_union_l, elem_of_list_to_set, list_elem_of_fmap. eauto.
Qed.

(** A key that occurs in a list has a last occurrence. *)
Lemma last_occurrence l k :
  (∃ a, a ∈ l ∧ key a = k) →
  ∃ l1 a l2, l = l1 ++ a :: l2 ∧ key a = k ∧ ∀ b, b ∈ l2 → key b ≠ k.
Proof.
  induction l as [|a l IH]; intros (c & Hc & Hk).
  - by apply elem_of_nil in Hc.
  - destruct (decide (Exists (λ b, key b = k) l)) as [Hex|Hno].
    + apply list.Exists_exists in Hex.
      destruct (IH Hex) as (l1 & a' & l2 & -> & ? & ?).
      by exists (a :: l1), a', l2.
    + assert (∀ b, b ∈ l → key b ≠ k) as Hl.
      { intros b Hb Hkb. apply Hno, list.Exists_exists. eauto. }
      apply elem_of_cons in Hc as [->|Hc]; [|by destruct (Hl c Hc)].
      by exists [], a, l.
Qed.

Lemma fill_lookup_empty l k v :
  fill key val ∅ l !! k = Some v →
  ∃ l1 a l2, l = l1 ++ a :: l2 ∧ key a = k
             ∧ (∀ b, b ∈ l2 → key b ≠ k) ∧ v = val a.
Proof.
  intros Hk. pose proof Hk as Hk'.
  apply fill_lookup_Some in Hk' as [Hk'|(a & Ha & Hka & _)]; [done|].
  destruct (last_occurrence l k) as (l1 & a' & l2 & -> & <- & Hl2); [by eauto|].
  rewrite fill_lookup_last in Hk by done.
  exists l1, a', l2. naive_solver.
Qed.

Lemma fill_size_le m l : (size (fill key val m l) ≤ size m + length l)%nat.
Proof.
  revert m. induction l as [|a l IH]; intros m; [cbn; lia|].
  rewrite fill_cons. cbn [length].
  pose proof (IH (<[key a:=val a]> m)) as Hrest.
  destruct (m !! key a) eqn:Hm.
  - rewrite map_size_insert_Some in Hrest by eauto. lia.
  - rewrite map_size_insert_None in Hrest by done. lia.
Qed.

(** Two assignments to one key leave fewer entries than assignments. *)
Lemma fill_size_dup m l1 a l2 b l3 :
  key a = key b →
  (size (fill key val m (l1 ++ a :: l2 ++ b :: l3))
     < size m + length (l1 ++ a :: l2 ++ b :: l3))%nat.
Proof.
  intros Hab.
  replace (l1 ++ a :: l2 ++ b :: l3) with ((l1 ++ a :: l2) ++ b :: l3)
    by (by rewrite <- app_assoc).
  rewrite fill_app, fill_cons, length_app. cbn [length].
  pose proof (fill_size_le m (l1 ++ a :: l2)) as Hpre.
  pose proof (fill_size_le (<[key b:=val b]> (fill key val m (l1 ++ a :: l2))) l3)
    as Hpost.
  rewrite map_size_insert_Some in Hpost.
  - lia.
  - rewrite <- Hab. apply fill_lookup_is_Some, elem_of_app. right. left.
Qed.
End FillFacts.

(** ** Attribute normalization *)

Lemma attributesToMap_fill (attrs : list attribute.KeyValue) :
  attributesToMap attrs
    = fill attribute.Key (λ a, attribute.AsInterface (attribute.Val a)) ∅ attrs.
Proof. reflexivity. Qed.

(** C8. For every sequence of key/value pairs, with or without repeated
    keys, the domain of the map of [attributesToMap] is the set of the keys
    of the sequence, the last pair of a key gives the value of the key, and
    every entry of the map is the value of the last pair of its key. *)
Theorem attributesToMap_last_wins (attrs : list attribute.KeyValue) :
  dom (attributesToMap attrs) = list_to_set (attribute.Key <$> attrs)
  ∧ (∀ l1 a l2,
       attrs = l1 ++ a :: l2 →
       (∀ b, b ∈ l2 → attribute.Key b ≠ attribute.Key a) →
       attributesToMap attrs !! attribute.Key a
         = Some (attribute.AsInterface (attribute.Val a)))
  ∧ (∀ k v,
       attributesToMap attrs !! k = Some v →
       ∃ l1 a l2,
         attrs = l1 ++ a :: l2 ∧ attribute.Key a = k
         ∧ (∀ b, b ∈ l2 → attribute.Key b ≠ k)
         ∧ v = attribute.AsInterface (attribute.Val a)).
Proof.
  rewrite attributesToMap_fill. split_and!.
  - by rewrite fill_dom, dom_empty_L, (right_id_L ∅ (∪)).
  - intros l1 a l2 -> Hl2.
    by apply (fill_lookup_last attribute.Key
                (λ a, attribute.AsInterface (attribute.Val a))).
  - intros k v Hk. by apply fill_lookup_empty in Hk.
Qed.

(** ** Span conversion *)

Lemma EncodeToString_empty (src : list byte) :
  hex.EncodeToString src = EmptyString → src = [].
Proof. by destruct src. Qed.

Lemma EncodeToString_length (src : list byte) :
  String.length (hex.EncodeToString src) = (2 * length src)%nat.
Proof. induction src as [|v rest IH]; cbn; [done|]. rewrite IH. lia. Qed.

Lemma SpanID_String_nonempty (s : trace.SpanID) : trace.SpanID_String s ≠ EmptyString.
Proof.
  unfold trace.SpanID_String. intros Hs%EncodeToString_empty.
  apply (f_equal length) in Hs. by rewrite length_vec_to_list in Hs.
Qed.

(** A span id is valid when it is not the all-zero id. *)
Lemma SpanID_IsValid_spec (s : trace.SpanID) :
  trace.SpanID_IsValid s = true ↔ s ≠ trace.nilSpanID.
Proof.
  unfold trace.SpanID_IsValid. rewrite negb_true_iff, bool_decide_eq_false.
  split; intros Hne Heq; apply Hne; [by rewrite Heq|by apply vec_to_list_inj2].
Qed.

Section ConversionFacts.
Context `{TimeConversion}.

(** C7. The converted parent id is the string of the id of the declared
    parent exactly when the parent context has a valid span id, and is the
    empty string otherwise; the span is parentless (a root) exactly when the
    parent context has no valid span id. *)
Theorem convertSpan_ParentSpanID (span : sdktrace.ReadOnlySpan) :
  SpanData_ParentSpanID (convertSpan span)
    = (if trace.HasSpanID (sdktrace.Parent span)
       then trace.SpanID_String (trace.spanID (sdktrace.Parent span))
       else EmptyString)
  ∧ (SpanData_ParentSpanID (convertSpan span)
       = trace.SpanID_String (trace.spanID (sdktrace.Parent span))
     ↔ trace.HasSpanID (sdktrace.Parent span) = true)
  ∧ (parentless span ↔ trace.HasSpanID (sdktrace.Parent span) = false)
  ∧ (trace.HasSpanID (sdktrace.Parent span) = true
     ↔ trace.spanID (sdktrace.Parent span) ≠ trace.nilSpanID).
Proof.
  unfold parentless. cbn.
  pose proof (SpanID_String_nonempty (trace.spanID (sdktrace.Parent span))) as Hne.
  pose proof (SpanID_IsValid_spec (trace.spanID (sdktrace.Parent span))) as Hvalid.
  unfold trace.HasSpanID in *.
  by destruct (trace.SpanID_IsValid _); split_and!.
Qed.

(** C9. [SameProcessAsParentSpan] is the negation of the [IsRemote] flag of
    the span context: false for a remote context, true for a local one. *)
Theorem convertSpan_SameProcessAsParentSpan (span : sdktrace.ReadOnlySpan) :
  Value (SpanData_SameProcessAsParentSpan (convertSpan span))
    = negb (trace.IsRemote (sdktrace.SpanContext span))
  ∧ (if trace.IsRemote (sdktrace.SpanContext span)
     then Value (SpanData_SameProcessAsParentSpan (convertSpan span)) = false
     else Value (SpanData_SameProcessAsParentSpan (convertSpan span)) = true).
Proof.
  cbn. by destruct (trace.IsRemote (sdktrace.SpanContext span)).
Qed.
End ConversionFacts.

(** ** Trace assembly *)

Section Assembly.
Context `{TimeConversion}.
Implicit Types (spans : list sdktrace.ReadOnlySpan) (td : TraceData).

(** The document of a group that is assembled holds the spans of the group,
    each assigned under its key, in the order of the group. *)
Lemma convertTraceLoop_Spans spans td td' :
  convertTraceLoop spans td = Ok td' →
  Spans td' = fill spanKey convertSpan (Spans td) spans.
Proof.
  revert td. induction spans as [|span rest IH]; intros td Hloop; cbn in Hloop.
  - by inversion Hloop.
  - repeat case_decide; try done; by apply IH in Hloop.
Qed.

Lemma convertTrace_fill spans td :
  convertTrace spans = Ok td → Spans td = fill spanKey convertSpan ∅ spans.
Proof. apply convertTraceLoop_Spans. Qed.

Lemma convertTrace_Spans_key spans td k c :
  convertTrace spans = Ok td → Spans td !! k = Some c → SpanData_SpanID c = k.
Proof.
  intros Hfill%convertTrace_fill. rewrite Hfill.
  by intros [Hk|(s & Hs & <- & ->)]%fill_lookup_Some.
Qed.

(** Without a parentless span the loop keeps the header it was given. *)
Lemma convertTraceLoop_no_root spans td :
  filter parentless spans = [] →
  ∃ td', convertTraceLoop spans td = Ok td'
         ∧ DisplayName td' = DisplayName td
         ∧ StartTime td' = StartTime td
         ∧ EndTime td' = EndTime td.
Proof.
  revert td. induction spans as [|span rest IH]; intros td Hnone; cbn.
  - by exists td.
  - destruct (decide (parentless span)) as [Hp|Hp].
    + by rewrite filter_cons_True in Hnone.
    + rewrite filter_cons_False in Hnone by done.
      unfold parentless in Hp. rewrite decide_False by done.
      by destruct (IH (withSpan td span) Hnone) as (td' & ? & ? & ? & ?); exists td'.
Qed.

(** With one parentless span and an empty name to start from, the header is
    the one of that span. *)
Lemma convertTraceLoop_one_root spans td r :
  filter parentless spans = [r] →
  DisplayName td = EmptyString →
  ∃ td', convertTraceLoop spans td = Ok td'
         ∧ DisplayName td' = sdktrace.Name r
         ∧ StartTime td' = timeToMicroseconds (sdktrace.StartTime r)
         ∧ EndTime td' = timeToMicroseconds (sdktrace.EndTime r).
Proof.
  revert td. induction spans as [|span rest IH]; intros td Hone Hname; [done|].
  cbn [convertTraceLoop].
  destruct (decide (parentless span)) as [Hp|Hp].
  - rewrite filter_cons_True in Hone by done. injection Hone as -> Hnone.
    unfold parentless in Hp. rewrite decide_True by done.
    rewrite decide_False by (by intros []).
    match goal with
    | |- ∃ td', convertTraceLoop rest ?td1 = _ ∧ _ =>
        destruct (convertTraceLoop_no_root rest td1 Hnone) as (td' & Hl & Hd & Hs & He)
    end.
    exists td'. by rewrite Hl, Hd, Hs, He.
  - rewrite filter_cons_False in Hone by done.
    unfold parentless in Hp. rewrite decide_False by done.
    by apply (IH (withSpan td span)).
Qed.

(** The only error is [MultipleRootSpans], and it takes a parentless span
    that comes after a document with a name. *)
Lemma convertTraceLoop_Err spans td e :
  convertTraceLoop spans td = Err e →
  e = MultipleRootSpans
  ∧ (1 ≤ length (filter parentless spans))%nat
  ∧ (DisplayName td = EmptyString → 2 ≤ length (filter parentless spans))%nat.
Proof.
  revert td. induction spans as [|span rest IH]; intros td Hloop; [done|].
  cbn [convertTraceLoop] in Hloop.
  destruct (decide (parentless span)) as [Hp|Hp].
  - rewrite filter_cons_True by done. cbn [length].
    unfold parentless in Hp. rewrite decide_True in Hloop by done.
    case_decide as Hname.
    + inversion Hloop. split_and!; [done|lia|done].
    + apply IH in Hloop as (-> & ? & _). split_and!; [done|lia|lia].
  - rewrite filter_cons_False by done.
    unfold parentless in Hp. rewrite decide_False in Hloop by done.
    by apply IH in Hloop.
Qed.

(** A second parentless span is refused whenever the parentless spans of the
    group have a name. *)
Lemma convertTraceLoop_named_roots spans td :
  (∀ s, s ∈ spans → parentless s → sdktrace.Name s ≠ EmptyString) →
  (if decide (DisplayName td = EmptyString)
   then 2 ≤ length (filter parentless spans)
   else 1 ≤ length (filter parentless spans))%nat →
  convertTraceLoop spans td = Err MultipleRootSpans.
Proof.
  revert td. induction spans as [|span rest IH]; intros td Hnamed Hcount.
  { cbn in Hcount. case_decide; lia. }
  cbn [convertTraceLoop].
  assert (∀ s, s ∈ rest → parentless s → sdktrace.Name s ≠ EmptyString) as Hrest.
  { intros s Hs. apply Hnamed. by right. }
  destruct (decide (parentless span)) as [Hp|Hp].
  - rewrite filter_cons_True in Hcount by done. cbn [length] in Hcount.
    pose proof (Hnamed span ltac:(left) Hp) as Hname.
    unfold parentless in Hp. rewrite decide_True by done.
    destruct (decide (DisplayName td = EmptyString)) as [Htd|Htd].
    + rewrite decide_False by (by intros []).
      apply IH; [done|]. cbn. rewrite decide_False by done. lia.
    + by rewrite decide_True.
  - rewrite filter_cons_False in Hcount by done.
    unfold parentless in Hp. rewrite decide_False by done.
    by apply IH.
Qed.

Lemma convertTrace_named_roots spans :
  (∀ s, s ∈ spans → parentless s → sdktrace.Name s ≠ EmptyString) →
  (2 ≤ length (filter parentless spans))%nat →
  convertTrace spans = Err MultipleRootSpans.
Proof.
  intros Hnamed Hcount. apply convertTraceLoop_named_roots; [done|].
  by rewrite decide_True.
Qed.

(** C4. A group with exactly one parentless span [r] is assembled, and the
    name, start and end of the document are the name, the converted start
    and the converted end of [r]. *)
Theorem convertTrace_unique_root (spans : list sdktrace.ReadOnlySpan) r :
  filter parentless spans = [r] →
  ∃ td, convertTrace spans = Ok td
        ∧ DisplayName td = sdktrace.Name r
        ∧ StartTime td = timeToMicroseconds (sdktrace.StartTime r)
        ∧ EndTime td = timeToMicroseconds (sdktrace.EndTime r).
Proof. intros Hone. by apply convertTraceLoop_one_root. Qed.

(** C6, as amended. When a group is assembled, the key of every span of the
    group is in [Spans]; a span that no later span of the group shares its
    key with is stored, converted, under its key; and every entry of [Spans]
    is the conversion of a span of the group and has its key as [SpanID]. *)
Theorem convertTrace_Spans (spans : list sdktrace.ReadOnlySpan) td :
  convertTrace spans = Ok td →
  (∀ s, s ∈ spans → is_Some (Spans td !! spanKey s))
  ∧ (∀ l1 s l2,
       spans = l1 ++ s :: l2 →
       (∀ s', s' ∈ l2 → spanKey s' ≠ spanKey s) →
       Spans td !! spanKey s = Some (convertSpan s))
  ∧ (∀ k c,
       Spans td !! k = Some c →
       SpanData_SpanID c = k ∧ ∃ s, s ∈ spans ∧ c = convertSpan s).
Proof.
  intros Hfill%convertTrace_fill. rewrite Hfill. split_and!.
  - intros s Hs. by apply (fill_lookup_is_Some spanKey).
  - intros l1 s l2 -> Hl2. by apply (fill_lookup_last spanKey convertSpan).
  - intros k c [Hk|(s & Hs & <- & ->)]%fill_lookup_Some; [done|]. eauto.
Qed.

(** C10. When two spans [a] and [b] of a group, [a] before [b], have the same
    key: if the group is assembled, [Spans] has fewer entries than the group
    has spans and, [b] being the last span with that key, the entry of the
    key is the conversion of [b]; if it is not assembled, the error is
    [MultipleRootSpans] and the group has two parentless spans. *)
Theorem convertTrace_collision (l1 l2 l3 : list sdktrace.ReadOnlySpan) a b :
  spanKey a = spanKey b →
  match convertTrace (l1 ++ a :: l2 ++ b :: l3) with
  | Ok td =>
      ((∀ s, s ∈ l3 → spanKey s ≠ spanKey b) →
       Spans td !! spanKey a = Some (convertSpan b))
      ∧ (size (Spans td) < length (l1 ++ a :: l2 ++ b :: l3))%nat
  | Err e =>
      e = MultipleRootSpans
      ∧ (2 ≤ length (filter parentless (l1 ++ a :: l2 ++ b :: l3)))%nat
  end.
Proof.
  intros Hab. destruct (convertTrace _) as [td|e] eqn:Hconv.
  - apply convertTrace_fill in Hconv. rewrite Hconv. split.
    + intros Hl3. rewrite Hab.
      replace (l1 ++ a :: l2 ++ b :: l3) with ((l1 ++ a :: l2) ++ b :: l3)
        by (by rewrite <- app_assoc).
      by apply (fill_lookup_last spanKey convertSpan).
    + pose proof (fill_size_dup spanKey convertSpan ∅ l1 a l2 b l3 Hab) as Hlt.
      by rewrite map_size_empty in Hlt.
  - apply convertTraceLoop_Err in Hconv as (-> & _ & Htwo). split; [done|].
    by apply Htwo.
Qed.
End Assembly.

(** ** Grouping by trace id *)

Lemma groupByTrace_snoc (spans : list sdktrace.ReadOnlySpan) span :
  groupByTrace (spans ++ [span])
    = <[trace.traceID (sdktrace.SpanContext span) :=
          default [] (groupByTrace spans !! trace.traceID (sdktrace.SpanContext span))
            ++ [span]]> (groupByTrace spans).
Proof. unfold groupByTrace. by rewrite foldl_app. Qed.

(** The group of a trace id is the spans of the batch with that id, in the
    order of the batch; a trace id without a span has no group. *)
Lemma groupByTrace_lookup (spans : list sdktrace.ReadOnlySpan) tid :
  groupByTrace spans !! tid
    = match filter (λ s, trace.traceID (sdktrace.SpanContext s) = tid) spans with
      | [] => None
      | g => Some g
      end.
Proof.
  induction spans as [|span spans IH] using rev_ind; [done|].
  rewrite groupByTrace_snoc, list.filter_app.
  destruct (decide (trace.traceID (sdktrace.SpanContext span) = tid)) as [<-|Hne].
  - rewrite lookup_insert_eq, IH, (filter_cons_True _ span) by done.
    by destruct (filter _ spans).
  - rewrite lookup_insert_ne, IH, (filter_cons_False _ span) by done.
    by rewrite app_nil_r.
Qed.

(** ** The export loop *)

(** The cases of one visit: the context is done, the group is assembled, the
    group is refused, the trace id is no key. *)
Ltac visit_cases m tid ctx w :=
  let spans := fresh "spans" in
  let e := fresh "e" in
  let td := fresh "td" in
  let err := fresh "err" in
  destruct (m !! tid) as [spans|] eqn:Hm;
  [ destruct (context.Err ctx (length (log w))) as [e|] eqn:Hctx;
    [ | destruct (convertTrace spans) as [td|err] eqn:Hconv ]
  | ].

Section ExportLoop.
Context `{TimeConversion} {Store : Type} `{TraceStore Store}.
Implicit Types (ctx : context.Context) (w : World Store)
  (m : gmap trace.TraceID (list sdktrace.ReadOnlySpan)).

(** A trace id that is no key of the map is not visited. *)
Lemma exportLoop_skip ctx m tid rest w :
  m !! tid = None → exportLoop ctx m (tid :: rest) w = exportLoop ctx m rest w.
Proof. intros Hm. cbn. by rewrite Hm. Qed.

(** The context is done when the group is reached. *)
Lemma exportLoop_cancelled ctx m tid rest w spans e :
  m !! tid = Some spans →
  context.Err ctx (length (log w)) = Some e →
  exportLoop ctx m (tid :: rest) w
    = ({| store := store w; log := log w ++ [ECtxErr; ECtxErr] |}, Some e).
Proof.
  intros Hm He. cbn. rewrite Hm. unfold ctxErr. rewrite He.
  unfold record. cbn. rewrite <- app_assoc. f_equal.
  rewrite length_app. cbn. unfold context.Err in *.
  destruct (context.done ctx) as [[t e']|]; [|done].
  case_decide; [|done]. by rewrite decide_True by lia.
Qed.

(** The group is reached with a live context and is refused. *)
Lemma exportLoop_convert_fails ctx m tid rest w spans err :
  m !! tid = Some spans →
  context.Err ctx (length (log w)) = None →
  convertTrace spans = Err err →
  exportLoop ctx m (tid :: rest) w
    = ({| store := store w; log := log w ++ [ECtxErr; EConvertTrace tid] |}, Some err).
Proof.
  intros Hm Hctx Hconv. cbn. rewrite Hm. unfold ctxErr. rewrite Hctx, Hconv.
  unfold record. cbn. by rewrite <- app_assoc.
Qed.

(** The group is reached with a live context and is assembled: its document
    goes to [Save], whose answer decides how the loop goes on. *)
Lemma exportLoop_saves ctx m tid rest w spans td :
  m !! tid = Some spans →
  context.Err ctx (length (log w)) = None →
  convertTrace spans = Ok td →
  exportLoop ctx m (tid :: rest) w
    = let '(s', e') := Save (store w) ctx (trace.TraceID_String tid) td in
      let w' := {| store := s'; log := log w ++ groupEvents tid td |} in
      match e' with
      | Some err => (w', Some err)
      | None => exportLoop ctx m rest w'
      end.
Proof.
  intros Hm Hctx Hconv. cbn. rewrite Hm. unfold ctxErr. rewrite Hctx, Hconv.
  unfold record. cbn.
  destruct (Save _ _ _ _) as [s' e']. by rewrite <- !app_assoc.
Qed.

(** The loop over [pre ++ post] is the loop over [pre] and then, when that
    ends without an error, the loop over [post]. *)
Lemma exportLoop_app ctx m pre post w :
  exportLoop ctx m (pre ++ post) w
    = match exportLoop ctx m pre w with
      | (w1, None) => exportLoop ctx m post w1
      | (w1, Some err) => (w1, Some err)
      end.
Proof.
  revert w. induction pre as [|tid pre IH]; intros w; [done|].
  cbn [app]. visit_cases m tid ctx w.
  - by rewrite !(exportLoop_cancelled _ _ _ _ _ _ _ Hm Hctx).
  - rewrite !(exportLoop_saves _ _ _ _ _ _ _ Hm Hctx Hconv).
    destruct (Save _ _ _ _) as [s' [err|]]; [done|]. apply IH.
  - by rewrite !(exportLoop_convert_fails _ _ _ _ _ _ _ Hm Hctx Hconv).
  - rewrite !exportLoop_skip by done. apply IH.
Qed.

(** The effects never shrink. *)
Lemma exportLoop_log ctx m order w :
  log w `prefix_of` log (exportLoop ctx m order w).1.
Proof.
  revert w. induction order as [|tid rest IH]; intros w; [done|].
  visit_cases m tid ctx w.
  - rewrite (exportLoop_cancelled _ _ _ _ _ _ _ Hm Hctx). by eexists.
  - rewrite (exportLoop_saves _ _ _ _ _ _ _ Hm Hctx Hconv).
    destruct (Save _ _ _ _) as [s' [err|]]; [by eexists|].
    etrans; [|apply IH]. by eexists.
  - rewrite (exportLoop_convert_fails _ _ _ _ _ _ _ Hm Hctx Hconv). by eexists.
  - rewrite exportLoop_skip by done. apply IH.
Qed.

(** The effects of a call that ends without an error: for every group, in
    the order of the visit, the check of the context, the assembly, the
    save. *)
Lemma exportLoop_success ctx m order w w' :
  exportLoop ctx m order w = (w', None) →
  log w' = log w ++ flat_map (visitEvents m) order.
Proof.
  revert w. induction order as [|tid rest IH]; intros w Hrun.
  { cbn in *. inversion Hrun. by rewrite app_nil_r. }
  cbn [flat_map]. unfold visitEvents at 1.
  visit_cases m tid ctx w.
  - by rewrite (exportLoop_cancelled _ _ _ _ _ _ _ Hm Hctx) in Hrun.
  - rewrite (exportLoop_saves _ _ _ _ _ _ _ Hm Hctx Hconv) in Hrun.
    destruct (Save _ _ _ _) as [s' [err|]]; [done|].
    apply IH in Hrun. cbn [log] in Hrun. by rewrite Hrun, <- app_assoc.
  - by rewrite (exportLoop_convert_fails _ _ _ _ _ _ _ Hm Hctx Hconv) in Hrun.
  - rewrite exportLoop_skip in Hrun by done. by apply IH.
Qed.

Lemma countCtxErr_app evs1 evs2 :
  countCtxErr (evs1 ++ evs2) = (countCtxErr evs1 + countCtxErr evs2)%nat.
Proof. unfold countCtxErr. by rewrite List.filter_app, length_app. Qed.

(** A call that ends without an error has asked the context once for every
    group it visited. *)
Lemma exportLoop_checks ctx m order w w' :
  exportLoop ctx m order w = (w', None) →
  countCtxErr (log w')
    = (countCtxErr (log w) + length (filter (λ t, is_Some (m !! t)) order))%nat.
Proof.
  revert w. induction order as [|tid rest IH]; intros w Hrun.
  { cbn in *. inversion Hrun. lia. }
  visit_cases m tid ctx w.
  - by rewrite (exportLoop_cancelled _ _ _ _ _ _ _ Hm Hctx) in Hrun.
  - rewrite (exportLoop_saves _ _ _ _ _ _ _ Hm Hctx Hconv) in Hrun.
    destruct (Save _ _ _ _) as [s' [err|]]; [done|].
    apply IH in Hrun. cbn [log] in Hrun.
    rewrite countCtxErr_app in Hrun.
    rewrite filter_cons_True by (by rewrite Hm). cbn in *. lia.
  - by rewrite (exportLoop_convert_fails _ _ _ _ _ _ _ Hm Hctx Hconv) in Hrun.
  - rewrite filter_cons_False by (rewrite Hm; by intros []).
    rewrite exportLoop_skip in Hrun by done. by apply IH.
Qed.

(** C2. Let the groups of [pre] be processed without an error and the
    context be live when the group of [tid] is reached. The effects so far
    are those of the groups of [pre]. If the group of [tid] is not assembled,
    the call returns that error with the store as [pre] left it and nothing
    of [post] done; if it is assembled and [Save] answers an error, the call
    returns that error with the store as that [Save] left it and nothing of
    [post] done. *)
Theorem ExportSpans_not_atomic ctx (spans : list sdktrace.ReadOnlySpan)
    pre tid post g w0 w1 :
  groupByTrace spans !! tid = Some g →
  ExportSpans ctx spans pre w0 = (w1, None) →
  context.Err ctx (length (log w1)) = None →
  log w1 = log w0 ++ flat_map (visitEvents (groupByTrace spans)) pre
  ∧ match convertTrace g with
    | Err err =>
        ExportSpans ctx spans (pre ++ tid :: post) w0
          = ({| store := store w1;
                log := log w1 ++ [ECtxErr; EConvertTrace tid] |}, Some err)
    | Ok td =>
        ∀ s' err,
          Save (store w1) ctx (trace.TraceID_String tid) td = (s', Some err) →
          ExportSpans ctx spans (pre ++ tid :: post) w0
            = ({| store := s'; log := log w1 ++ groupEvents tid td |}, Some err)
    end.
Proof.
  unfold ExportSpans. intros Hg Hpre Hctx. split.
  { by apply (exportLoop_success ctx). }
  rewrite exportLoop_app, Hpre.
  destruct (convertTrace g) as [td|err] eqn:Hconv.
  - intros s' err Hsave.
    by rewrite (exportLoop_saves _ _ _ _ _ _ _ Hg Hctx Hconv), Hsave.
  - by apply (exportLoop_convert_fails _ _ _ _ _ g).
Qed.

(** C3. Let the groups of [pre] be processed without an error. The context
    was asked once for each of them, at the head of the effects of the
    group. If the context is done when the group of [tid] is reached, the
    call returns the error of the context with the store as [pre] left it:
    the group is not assembled and nothing of [post] is done. If it is live,
    the group is assembled whatever the context does after the check: its
    error is returned or its document goes to [Save]. *)
Theorem ExportSpans_cancellation ctx (spans : list sdktrace.ReadOnlySpan)
    pre tid post g w0 w1 :
  groupByTrace spans !! tid = Some g →
  ExportSpans ctx spans pre w0 = (w1, None) →
  log w1 = log w0 ++ flat_map (visitEvents (groupByTrace spans)) pre
  ∧ countCtxErr (log w1)
    = (countCtxErr (log w0)
       + length (filter (λ t, is_Some (groupByTrace spans !! t)) pre))%nat
  ∧ match context.Err ctx (length (log w1)) with
    | Some e =>
        ExportSpans ctx spans (pre ++ tid :: post) w0
          = ({| store := store w1; log := log w1 ++ [ECtxErr; ECtxErr] |}, Some e)
    | None =>
        match convertTrace g with
        | Err err =>
            ExportSpans ctx spans (pre ++ tid :: post) w0
              = ({| store := store w1;
                    log := log w1 ++ [ECtxErr; EConvertTrace tid] |}, Some err)
        | Ok td =>
            log w1 ++ groupEvents tid td
              `prefix_of` log (ExportSpans ctx spans (pre ++ tid :: post) w0).1
        end
    end.
Proof.
  unfold ExportSpans. intros Hg Hpre. split_and!.
  { by apply (exportLoop_success ctx). }
  { by apply (exportLoop_checks ctx). }
  rewrite exportLoop_app, Hpre.
  destruct (context.Err ctx (length (log w1))) as [e|] eqn:Hctx.
  { by eapply exportLoop_cancelled. }
  destruct (convertTrace g) as [td|err] eqn:Hconv.
  - rewrite (exportLoop_saves _ _ _ _ _ _ _ Hg Hctx Hconv).
    destruct (Save _ _ _ _) as [s' [err|]]; [done|].
    apply (exportLoop_log ctx (groupByTrace spans) post
             {| store := s'; log := log w1 ++ groupEvents tid td |}).
  - by apply (exportLoop_convert_fails _ _ _ _ _ g).
Qed.

(** C5. A group without a parentless span is assembled, the name, start and
    end of its document are the zero values, and the loop of the exporter,
    reaching the group with a live context, hands that document to
    [Save]. *)
Theorem convertTrace_no_root (spans : list sdktrace.ReadOnlySpan) :
  filter parentless spans = [] →
  ∃ td, convertTrace spans = Ok td
        ∧ DisplayName td = EmptyString ∧ StartTime td = 0 ∧ EndTime td = 0
        ∧ ∀ ctx m tid rest w,
            m !! tid = Some spans →
            context.Err ctx (length (log w)) = None →
            exportLoop ctx m (tid :: rest) w
              = let '(s', e') := Save (store w) ctx (trace.TraceID_String tid) td in
                let w' := {| store := s'; log := log w ++ groupEvents tid td |} in
                match e' with
                | Some err => (w', Some err)
                | None => exportLoop ctx m rest w'
                end.
Proof.
  intros Hnone.
  destruct (convertTraceLoop_no_root spans emptyTraceData Hnone)
    as (td & Hconv & Hd & Hs & He).
  exists td. split_and!; try done.
  intros ctx m tid rest w Hm Hctx. by apply (exportLoop_saves _ _ _ _ _ spans).
Qed.
End ExportLoop.

(** ** The exporter on the sample spans *)

Section Samples.
Import sample.
#[local] Existing Instance sampleTimeConversion.

(** C1. The group of two parentless spans without a name is assembled: no
    error is returned, and the export call saves the document under the
    trace id. *)
Theorem convertTrace_unnamed_roots :
  length (filter parentless unnamedRoots) = 2%nat
  ∧ ∃ td, convertTrace unnamedRoots = Ok td
          ∧ ExportSpans context.Background unnamedRoots [T1] emptyStore
            = ({| store := {| docs := {[ trace.TraceID_String T1 := td ]};
                              refused := [] |};
                  log := groupEvents T1 td |}, None).
Proof.
  split; [reflexivity|].
  eexists. split; reflexivity.
Qed.

(** With names, the same two spans are refused. *)
Example convertTrace_named_roots_sample :
  convertTrace [rootA; rootB] = Err MultipleRootSpans.
Proof. reflexivity. Qed.

(** C6, as stated, fails on the group in which two children have the same
    span id: the group is assembled and the conversion of the first child is
    under no key of [Spans]. *)
Lemma convertTrace_Spans_overwritten :
  ∃ td, convertTrace reusedID = Ok td
        ∧ childB ∈ reusedID
        ∧ ¬ ∃ k, Spans td !! k = Some (convertSpan childB).
Proof.
  eassert (convertTrace reusedID = Ok _) as Hconv by reflexivity.
  eexists. split_and!; [exact Hconv|by right; left|].
  intros (k & Hk).
  pose proof (convertTrace_Spans_key _ _ _ _ Hconv Hk) as <-.
  rewrite (convertTrace_fill _ _ Hconv) in Hk.
  change (SpanData_SpanID (convertSpan childB)) with (spanKey childB') in Hk.
  rewrite (fill_lookup_last spanKey convertSpan ∅ [rootA; childB] childB' [])
    in Hk by (by intros ? ?%elem_of_nil).
  by apply (f_equal (λ o, SpanData_DisplayName <$> o)) in Hk.
Qed.

(** The first trace of [batchD] is saved, the second has two named roots:
    the call returns [MultipleRootSpans] and the first document stays. *)
Lemma ExportSpans_not_atomic_witness :
  rangeOrder (groupByTrace batchD) [T1; T2]
  ∧ ∃ w1, ExportSpans context.Background batchD [T1] emptyStore = (w1, None)
          ∧ is_Some (docs (store w1) !! trace.TraceID_String T1)
          ∧ ExportSpans context.Background batchD [T1; T2] emptyStore
            = ({| store := store w1; log := log w1 ++ [ECtxErr; EConvertTrace T2] |},
               Some MultipleRootSpans).
Proof.
  split; [apply (bool_decide_unpack _); exact I|].
  eassert (ExportSpans context.Background batchD [T1] emptyStore = (_, None))
    as Hpre by reflexivity.
  eexists. split; [exact Hpre|]. split; [by eexists|].
  exact (proj2 (ExportSpans_not_atomic context.Background batchD [T1] T2 []
                  [rootC; rootD] emptyStore _ eq_refl Hpre eq_refl)).
Defined.

(** A store that refuses the second trace: the call returns the error of
    [Save], the first document stays and the second is not stored. *)
Example ExportSpans_save_refused :
  ∃ w, ExportSpans context.Background batchE [T1; T2]
         (refusing [trace.TraceID_String T2])
       = (w, Some (errors_New "save refused"))
       ∧ is_Some (docs (store w) !! trace.TraceID_String T1)
       ∧ docs (store w) !! trace.TraceID_String T2 = None.
Proof. eexists. split; [reflexivity|]. split; [by eexists|reflexivity]. Qed.

(** The context is done once the first trace of [batchE] is saved: the call
    returns its error, and the second trace is neither assembled nor
    saved. *)
Lemma ExportSpans_cancellation_witness :
  rangeOrder (groupByTrace batchE) [T1; T2]
  ∧ ∃ w1, ExportSpans (cancelledAt 3) batchE [T1] emptyStore = (w1, None)
          ∧ countCtxErr (log w1) = 1%nat
          ∧ ExportSpans (cancelledAt 3) batchE [T1; T2] emptyStore
            = ({| store := store w1; log := log w1 ++ [ECtxErr; ECtxErr] |},
               Some context_Canceled).
Proof.
  split; [apply (bool_decide_unpack _); exact I|].
  eassert (ExportSpans (cancelledAt 3) batchE [T1] emptyStore = (_, None))
    as Hpre by reflexivity.
  eexists. split; [exact Hpre|].
  destruct (ExportSpans_cancellation (cancelledAt 3) batchE [T1] T2 []
              [rootC] emptyStore _ eq_refl Hpre) as (_ & Hcount & Hrun).
  split; [exact Hcount|exact Hrun].
Defined.

(** The context is done while the first trace is being assembled: that trace
    is still assembled and saved, and the call stops at the next check. *)
Example ExportSpans_cancelled_during_conversion :
  ∃ w, ExportSpans (cancelledAt 1) batchE [T1; T2] emptyStore
       = (w, Some context_Canceled)
       ∧ is_Some (docs (store w) !! trace.TraceID_String T1)
       ∧ docs (store w) !! trace.TraceID_String T2 = None
       ∧ countCtxErr (log w) = 3%nat.
Proof.
  eexists. split; [reflexivity|]. split; [by eexists|]. split; reflexivity.
Qed.

(** A context that is done before the call: nothing is saved (scenario E of
    the spec); and an empty batch: nothing is done (scenario C). *)
Example ExportSpans_cancelled_before :
  ExportSpans (cancelledAt 0) batchE [T1; T2] emptyStore
    = ({| store := store emptyStore; log := [ECtxErr; ECtxErr] |}, Some context_Canceled).
Proof. reflexivity. Qed.

Example ExportSpans_empty_batch ctx :
  ExportSpans ctx [] [] emptyStore = (emptyStore, None).
Proof. reflexivity. Qed.

Lemma convertTrace_unique_root_witness :
  filter parentless rootAndChild = [rootA]
  ∧ ∃ td, convertTrace rootAndChild = Ok td
          ∧ DisplayName td = "A" ∧ StartTime td = 5 ∧ EndTime td = 9.
Proof.
  split; [reflexivity|].
  exact (convertTrace_unique_root rootAndChild rootA eq_refl).
Defined.

Lemma convertTrace_no_root_witness :
  filter parentless orphan = []
  ∧ ∃ td, convertTrace orphan = Ok td
          ∧ DisplayName td = EmptyString ∧ StartTime td = 0 ∧ EndTime td = 0
          ∧ (ExportSpans context.Background orphan [T1] emptyStore).2 = None.
Proof.
  split; [reflexivity|].
  destruct (convertTrace_no_root (Store:=memStore) orphan eq_refl)
    as (td & Hconv & Hd & Hs & He & Hsave).
  exists td. split_and!; [done..|].
  unfold ExportSpans. by rewrite Hsave.
Defined.

Lemma convertTrace_Spans_witness :
  ∃ td, convertTrace reusedID = Ok td
        ∧ Spans td !! spanKey childB = Some (convertSpan childB')
        ∧ Spans td !! spanKey rootA = Some (convertSpan rootA).
Proof.
  eassert (convertTrace reusedID = Ok _) as Hconv by reflexivity.
  eexists. split; [exact Hconv|].
  destruct (convertTrace_Spans reusedID _ Hconv) as (_ & Hlast & _).
  split.
  - apply (Hlast [rootA; childB] childB' []); [done|]. by intros ? ?%elem_of_nil.
  - apply (Hlast [] rootA [childB; childB']); [done|].
    intros s' Hs'.
    repeat (apply elem_of_cons in Hs' as [->|Hs']; [by vm_compute|]).
    by apply elem_of_nil in Hs'.
Defined.

Lemma convertTrace_collision_witness :
  spanKey childB = spanKey childB'
  ∧ ∃ td, convertTrace reusedID = Ok td
          ∧ Spans td !! spanKey childB = Some (convertSpan childB')
          ∧ (size (Spans td) < length reusedID)%nat.
Proof.
  split; [reflexivity|].
  pose proof (convertTrace_collision [rootA] [] [] childB childB' eq_refl) as Hcoll.
  change ([rootA] ++ childB :: [] ++ childB' :: []) with reusedID in Hcoll.
  eassert (convertTrace reusedID = Ok _) as Hconv by reflexivity.
  rewrite Hconv in Hcoll. destruct Hcoll as [Hlast Hsize].
  eexists. split; [exact Hconv|].
  split; [apply Hlast; by intros ? ?%elem_of_nil|exact Hsize].
Defined.
End Samples.

(** * Further properties of the exporter and of the adapter *)

(** ** Identifiers *)

Lemma hexBytes_byte (v : byte) :
  (h ← hexValue (hex.hextable (N.shiftr (Byte.to_N v) 4));
   l ← hexValue (hex.hextable (N.land (Byte.to_N v) 15));
   Byte.of_N (16 * h + l)) = Some v.
Proof. by destruct v. Qed.

(** Decoding undoes [hex.EncodeToString]. *)
Lemma hexBytes_EncodeToString (src : list byte) :
  hexBytes (hex.EncodeToString src) = Some src.
Proof.
  induction src as [|v rest IH]; [done|].
  cbn [hex.EncodeToString hexBytes]. rewrite IH.
  pose proof (hexBytes_byte v) as Hv.
  destruct (hexValue (hex.hextable (N.shiftr (Byte.to_N v) 4))) as [h|]; [|done].
  destruct (hexValue (hex.hextable (N.land (Byte.to_N v) 15))) as [l|]; [|done].
  cbn in *. by rewrite Hv.
Qed.

Lemma EncodeToString_inj (src1 src2 : list byte) :
  hex.EncodeToString src1 = hex.EncodeToString src2 → src1 = src2.
Proof.
  intros Heq. apply (f_equal hexBytes) in Heq.
  rewrite !hexBytes_EncodeToString in Heq. by injection Heq.
Qed.

Lemma SpanID_String_inj (s1 s2 : trace.SpanID) :
  trace.SpanID_String s1 = trace.SpanID_String s2 → s1 = s2.
Proof. intros Heq%EncodeToString_inj. by apply vec_to_list_inj2. Qed.

Lemma TraceID_String_inj (t1 t2 : trace.TraceID) :
  trace.TraceID_String t1 = trace.TraceID_String t2 → t1 = t2.
Proof. intros Heq%EncodeToString_inj. by apply vec_to_list_inj2. Qed.

Section Identifiers.
Context `{TimeConversion}.

(** X1. The ids that [convertSpan] stores are the hex digits of the ids of
    the span: 16 digits for the span id, 32 for the trace id, and they decode
    back to the bytes of the ids; the parent id is empty or has 16 digits. *)
Theorem convertSpan_ids_round_trip (span : sdktrace.ReadOnlySpan) :
  hexBytes (SpanData_SpanID (convertSpan span))
    = Some (vec_to_list (trace.spanID (sdktrace.SpanContext span)))
  ∧ hexBytes (SpanData_TraceID (convertSpan span))
    = Some (vec_to_list (trace.traceID (sdktrace.SpanContext span)))
  ∧ String.length (SpanData_SpanID (convertSpan span)) = 16%nat
  ∧ String.length (SpanData_TraceID (convertSpan span)) = 32%nat
  ∧ (String.length (SpanData_ParentSpanID (convertSpan span)) = 0%nat
     ∨ String.length (SpanData_ParentSpanID (convertSpan span)) = 16%nat).
Proof.
  cbn. unfold trace.SpanID_String, trace.TraceID_String.
  rewrite !hexBytes_EncodeToString. split_and!; [done|done|..].
  - by rewrite EncodeToString_length, length_vec_to_list.
  - by rewrite EncodeToString_length, length_vec_to_list.
  - destruct (trace.HasSpanID _); [right|by left].
    by rewrite EncodeToString_length, length_vec_to_list.
Qed.

(** X2. Two spans are stored under the same key of [Spans] exactly when they
    have the same span id, and two trace ids are saved under the same name
    exactly when they are the same id. *)
Theorem spanKey_collision_iff (a b : sdktrace.ReadOnlySpan) (t1 t2 : trace.TraceID) :
  (spanKey a = spanKey b
   ↔ trace.spanID (sdktrace.SpanContext a) = trace.spanID (sdktrace.SpanContext b))
  ∧ (trace.TraceID_String t1 = trace.TraceID_String t2 ↔ t1 = t2).
Proof.
  split; split.
  - apply SpanID_String_inj.
  - unfold spanKey. cbn. by intros ->.
  - apply TraceID_String_inj.
  - by intros ->.
Qed.
End Identifiers.

(** ** More on maps filled by a loop of assignments *)

Section FillMore.
Context {K : Type} `{Countable K} {A V : Type}.
Variables (key : A → K) (val : A → V).
Implicit Types (m : gmap K V) (l : list A).

(** Filling a map is filling the empty map and keeping, for the keys that
    are not assigned, what the map had. *)
Lemma fill_union m l : fill key val m l = fill key val ∅ l ∪ m.
Proof.
  revert m. induction l as [|a l IH]; intros m.
  - cbn. by rewrite (left_id_L ∅ (∪)).
  - rewrite !fill_cons, (IH (<[key a:=val a]> m)), (IH (<[key a:=val a]> ∅)).
    rewrite <- (assoc_L (∪)). f_equal.
    by rewrite insert_empty, <- insert_union_singleton_l.
Qed.

Lemma fill_lookup_NoDup l a :
  NoDup (key <$> l) → a ∈ l → fill key val ∅ l !! key a = Some (val a).
Proof.
  intros Hnd (l1 & l2 & ->)%list_elem_of_split.
  apply fill_lookup_last. intros b Hb Hkey.
  rewrite fmap_app, fmap_cons in Hnd.
  apply list.NoDup_app in Hnd as (_ & _ & Hnd). apply list.NoDup_cons in Hnd as [Hnot _].
  apply Hnot. rewrite <- Hkey. by apply list_elem_of_fmap_2.
Qed.

(** A list in which a key occurs twice. *)
Lemma repeated_key l :
  ¬ NoDup (key <$> l) →
  ∃ l1 a l2 b l3, l = l1 ++ a :: l2 ++ b :: l3 ∧ key a = key b.
Proof.
  induction l as [|a l IH]; intros Hdup.
  - destruct Hdup. constructor.
  - destruct (decide (key a ∈ key <$> l)) as [Hin|Hnin].
    + apply list_elem_of_fmap in Hin as (b & Hkey & (l2 & l3 & ->)%list_elem_of_split).
      by exists [], a, l2, b, l3.
    + destruct IH as (l1 & a' & l2 & b & l3 & -> & Hkey).
      { intros Hnd. apply Hdup. rewrite fmap_cons. by constructor. }
      by exists (a :: l1), a', l2, b, l3.
Qed.

Lemma fill_size_NoDup l :
  NoDup (key <$> l) ↔ size (fill key val ∅ l) = length l.
Proof.
  split.
  - intros Hnd. rewrite <- size_dom, fill_dom, dom_empty_L, (right_id_L ∅ (∪)).
    by rewrite size_list_to_set, length_fmap.
  - intros Hsize. destruct (decide (NoDup (key <$> l))) as [|Hdup]; [done|].
    apply repeated_key in Hdup as (l1 & a & l2 & b & l3 & -> & Hkey).
    pose proof (fill_size_dup key val ∅ l1 a l2 b l3 Hkey) as Hlt.
    rewrite map_size_empty in Hlt. lia.
Qed.

Lemma fill_Permutation l l' :
  NoDup (key <$> l) → l ≡ₚ l' → fill key val ∅ l = fill key val ∅ l'.
Proof.
  intros Hnd Hperm.
  assert (NoDup (key <$> l')) as Hnd' by (by rewrite <- Hperm).
  assert (∀ l1 l2 k v,
            NoDup (key <$> l2) → l1 ≡ₚ l2 →
            fill key val ∅ l1 !! k = Some v → fill key val ∅ l2 !! k = Some v)
    as Hone.
  { intros l1 l2 k v Hnd2 Hp [Hk|(a & Ha & <- & ->)]%fill_lookup_Some; [done|].
    apply fill_lookup_NoDup; [done|]. by rewrite <- Hp. }
  apply map_eq. intros k. apply option_eq. intros v. split; by apply Hone.
Qed.
End FillMore.

(** ** More on attribute normalization *)

(** X3. The attributes of a sequence followed by another are those of the
    second, and those of the first for the keys the second does not have;
    the empty sequence gives the empty map. *)
Theorem attributesToMap_app (attrs1 attrs2 : list attribute.KeyValue) :
  attributesToMap (attrs1 ++ attrs2) = attributesToMap attrs2 ∪ attributesToMap attrs1
  ∧ attributesToMap [] = ∅.
Proof.
  split; [|done]. rewrite !attributesToMap_fill, fill_app. apply fill_union.
Qed.

(** X4. The map has at most as many entries as the sequence has pairs, and
    exactly as many when, and only when, no key is repeated. *)
Theorem attributesToMap_size (attrs : list attribute.KeyValue) :
  (size (attributesToMap attrs) ≤ length attrs)%nat
  ∧ (NoDup (attribute.Key <$> attrs) ↔ size (attributesToMap attrs) = length attrs).
Proof.
  rewrite attributesToMap_fill. split.
  - pose proof (fill_size_le attribute.Key
                  (λ a, attribute.AsInterface (attribute.Val a)) ∅ attrs) as Hle.
    by rewrite map_size_empty in Hle.
  - apply fill_size_NoDup.
Qed.

(** X5. When no key is repeated, the order of the pairs does not matter. *)
Theorem attributesToMap_Permutation (attrs attrs' : list attribute.KeyValue) :
  NoDup (attribute.Key <$> attrs) →
  attrs ≡ₚ attrs' →
  attributesToMap attrs = attributesToMap attrs'.
Proof. rewrite !attributesToMap_fill. apply fill_Permutation. Qed.

(** ** Links, events and the other fields of a span *)

Lemma foldl_snoc_fmap {A B} (f : A → B) (l : list A) (init : list B) :
  foldl (λ acc x, acc ++ [f x]) init l = init ++ (f <$> l).
Proof.
  revert init. induction l as [|x l IH]; intros init; cbn.
  - by rewrite app_nil_r.
  - by rewrite IH, <- app_assoc.
Qed.

Lemma convertLinks_fmap (links : list sdktrace.Link) :
  convertLinks links = convertLink <$> links.
Proof. apply (foldl_snoc_fmap convertLink links []). Qed.

Section Fields.
Context `{TimeConversion}.

Lemma convertEvents_fmap (evs : list sdktrace.Event) :
  convertEvents evs = convertEvent <$> evs.
Proof. apply (foldl_snoc_fmap convertEvent evs []). Qed.

(** X6. [convertLinks] and [convertEvents] give one link for every link and
    one event for every event, in the same order, each converted on its own:
    the count of dropped attributes of a link and the name of an event are
    kept, and their attributes are normalized. *)
Theorem convertLinks_convertEvents_elementwise
    (links : list sdktrace.Link) (evs : list sdktrace.Event) (i : nat) :
  length (convertLinks links) = length links
  ∧ convertLinks links !! i = convertLink <$> links !! i
  ∧ length (convertEvents evs) = length evs
  ∧ convertEvents evs !! i = convertEvent <$> evs !! i.
Proof.
  rewrite convertLinks_fmap, convertEvents_fmap.
  by rewrite !length_fmap, !list_lookup_fmap.
Qed.

(** X23. The span context of a link keeps the ids, as hex digits that decode
    back to the bytes of the ids, and the remote flag; its trace flags are
    the number of the flags byte, from 0 to 255. *)
Theorem convertSpanContext_fields (sc : trace.SpanContext) :
  hexBytes (SpanContext_TraceID (convertSpanContext sc))
    = Some (vec_to_list (trace.traceID sc))
  ∧ hexBytes (SpanContext_SpanID (convertSpanContext sc))
    = Some (vec_to_list (trace.spanID sc))
  ∧ SpanContext_IsRemote (convertSpanContext sc) = trace.IsRemote sc
  ∧ 0 ≤ SpanContext_TraceFlags (convertSpanContext sc) < 256
  ∧ Byte.of_N (Z.to_N (SpanContext_TraceFlags (convertSpanContext sc)))
    = Some (trace.traceFlags sc).
Proof.
  cbn. unfold trace.SpanID_String, trace.TraceID_String.
  rewrite !hexBytes_EncodeToString, N2Z.id, Byte.of_to_N.
  pose proof (Byte.to_N_bounded (trace.traceFlags sc)). split_and!; [done..|lia|lia|done].
Qed.
End Fields.

(** ** More on trace assembly *)

Section AssemblyMore.
Context `{TimeConversion}.
Implicit Types (spans : list sdktrace.ReadOnlySpan) (td : TraceData).

Lemma spanKey_fmap spans :
  spanKey <$> spans
    = trace.SpanID_String <$> ((λ s, trace.spanID (sdktrace.SpanContext s)) <$> spans).
Proof. by rewrite <- list_fmap_compose. Qed.

(** X7. When the spans of a group have different span ids and the group is
    assembled, [Spans] has one entry for every span of the group: each span,
    converted, is under its key. The number of entries is the number of
    spans exactly when the span ids are different. *)
Theorem convertTrace_distinct_ids spans td :
  convertTrace spans = Ok td →
  (NoDup ((λ s, trace.spanID (sdktrace.SpanContext s)) <$> spans)
   ↔ size (Spans td) = length spans)
  ∧ (NoDup ((λ s, trace.spanID (sdktrace.SpanContext s)) <$> spans) →
     ∀ s, s ∈ spans → Spans td !! spanKey s = Some (convertSpan s)).
Proof.
  intros Hfill%convertTrace_fill. rewrite Hfill.
  assert (NoDup ((λ s, trace.spanID (sdktrace.SpanContext s)) <$> spans)
          ↔ NoDup (spanKey <$> spans)) as Hids.
  { rewrite spanKey_fmap. symmetry. apply NoDup_fmap. intros ??. apply SpanID_String_inj. }
  split.
  - rewrite Hids. apply fill_size_NoDup.
  - intros Hnd%Hids s Hs. by apply (fill_lookup_NoDup spanKey convertSpan).
Qed.

(** The loop fails exactly when it meets a parentless span with a name in
    the document, or a parentless span after a parentless span with a
    name. *)
Lemma convertTraceLoop_Err_iff spans td :
  convertTraceLoop spans td = Err MultipleRootSpans
  ↔ (DisplayName td ≠ EmptyString ∧ ∃ r, r ∈ spans ∧ parentless r)
    ∨ (∃ l1 r1 l2 r2 l3,
         spans = l1 ++ r1 :: l2 ++ r2 :: l3
         ∧ parentless r1 ∧ sdktrace.Name r1 ≠ EmptyString ∧ parentless r2).
Proof.
  revert td. induction spans as [|span rest IH]; intros td.
  { split; [done|]. intros [(_ & r & Hr%elem_of_nil & _)|(l1 & ? & ? & ? & ? & Heq & _)];
      [done|by destruct l1]. }
  cbn [convertTraceLoop]. destruct (decide (parentless span)) as [Hp|Hp].
  - pose proof Hp as Hp'. unfold parentless in Hp'. rewrite decide_True by done.
    destruct (decide (DisplayName td ≠ EmptyString)) as [Hname|Hname].
    { split; [|done]. intros _. left. split; [done|]. exists span. split; [left|done]. }
    rewrite IH. cbn [DisplayName]. split.
    + intros [(Hn & r & Hr & Hpr)|(l1 & r1 & l2 & r2 & l3 & -> & ? & ? & ?)].
      * apply list_elem_of_split in Hr as (l2 & l3 & ->).
        right. by exists [], span, l2, r, l3.
      * right. by exists (span :: l1), r1, l2, r2, l3.
    + intros [[Hn _]|(l1 & r1 & l2 & r2 & l3 & Heq & Hp1 & Hn1 & Hp2)]; [done|].
      destruct l1 as [|x l1]; injection Heq as -> ->.
      * left. split; [done|]. exists r2. split; [|done].
        apply elem_of_app. right. left.
      * right. by exists l1, r1, l2, r2, l3.
  - pose proof Hp as Hp'. unfold parentless in Hp'. rewrite decide_False by done.
    rewrite IH. cbn [DisplayName]. split.
    + intros [(Hn & r & Hr & Hpr)|(l1 & r1 & l2 & r2 & l3 & -> & ? & ? & ?)].
      * left. split; [done|]. exists r. split; [by right|done].
      * right. by exists (span :: l1), r1, l2, r2, l3.
    + intros [(Hn & r & Hr & Hpr)|(l1 & r1 & l2 & r2 & l3 & Heq & Hp1 & Hn1 & Hp2)].
      * left. split; [done|]. exists r. split; [|done].
        apply elem_of_cons in Hr as [->|Hr]; done.
      * destruct l1 as [|x l1]; injection Heq as -> ->; [done|].
        right. by exists l1, r1, l2, r2, l3.
Qed.

(** X8. [convertTrace] has one error, [MultipleRootSpans], and returns it
    exactly when a parentless span that has a name comes, in the group,
    before another parentless span. *)
Theorem convertTrace_Err_iff spans :
  (∀ e, convertTrace spans = Err e → e = MultipleRootSpans)
  ∧ (convertTrace spans = Err MultipleRootSpans
     ↔ ∃ l1 r1 l2 r2 l3,
         spans = l1 ++ r1 :: l2 ++ r2 :: l3
         ∧ parentless r1 ∧ sdktrace.Name r1 ≠ EmptyString ∧ parentless r2).
Proof.
  split.
  - intros e He. by apply convertTraceLoop_Err in He as [-> _].
  - unfold convertTrace. rewrite convertTraceLoop_Err_iff. cbn. split; [|by right].
    by intros [[? _]|?].
Qed.
End AssemblyMore.

(** ** More on grouping by trace id *)

Lemma groupByTrace_is_Some (spans : list sdktrace.ReadOnlySpan) tid :
  is_Some (groupByTrace spans !! tid)
  ↔ tid ∈ (λ s, trace.traceID (sdktrace.SpanContext s)) <$> spans.
Proof.
  rewrite groupByTrace_lookup, list_elem_of_fmap. split.
  - intros Hsome.
    destruct (filter _ spans) as [|s g] eqn:Hg; [by destruct Hsome|].
    assert (s ∈ filter (λ s, trace.traceID (sdktrace.SpanContext s) = tid) spans)
      as [Htid Hs]%list_elem_of_filter by (rewrite Hg; left).
    by exists s.
  - intros (s & -> & Hs).
    assert (s ∈ filter (λ s', trace.traceID (sdktrace.SpanContext s')
                              = trace.traceID (sdktrace.SpanContext s)) spans) as Hin
      by (by apply list_elem_of_filter).
    destruct (filter _ spans); [by apply elem_of_nil in Hin|done].
Qed.

Lemma groupByTrace_group (spans : list sdktrace.ReadOnlySpan) tid g :
  groupByTrace spans !! tid = Some g →
  g = filter (λ s, trace.traceID (sdktrace.SpanContext s) = tid) spans ∧ g ≠ [].
Proof.
  rewrite groupByTrace_lookup. destruct (filter _ spans); [done|].
  by intros [= <-].
Qed.

Lemma rangeOrder_keys {V} (m : gmap trace.TraceID V) order tid :
  rangeOrder m order → tid ∈ order ↔ is_Some (m !! tid).
Proof.
  unfold rangeOrder. intros ->. rewrite list_elem_of_fmap. split.
  - intros ([k v] & -> & Hkv%elem_of_map_to_list). by exists v.
  - intros [v Hv]. exists (tid, v). split; [done|]. by apply elem_of_map_to_list.
Qed.

Lemma rangeOrder_NoDup {V} (m : gmap trace.TraceID V) order :
  rangeOrder m order → NoDup order.
Proof. unfold rangeOrder. intros ->. apply NoDup_fst_map_to_list. Qed.

(** X9. The group of a trace id is made of the spans of the batch that have
    this trace id, in the order of the batch, and is never empty; the trace
    ids that have a group are those of the spans of the batch. *)
Theorem groupByTrace_groups (spans : list sdktrace.ReadOnlySpan) (tid : trace.TraceID) :
  (groupByTrace spans !! tid
     = match filter (λ s, trace.traceID (sdktrace.SpanContext s) = tid) spans with
       | [] => None
       | g => Some g
       end)
  ∧ groupByTrace spans !! tid ≠ Some []
  ∧ (is_Some (groupByTrace spans !! tid)
     ↔ tid ∈ (λ s, trace.traceID (sdktrace.SpanContext s)) <$> spans)
  ∧ dom (groupByTrace spans)
    = list_to_set ((λ s, trace.traceID (sdktrace.SpanContext s)) <$> spans).
Proof.
  split_and!.
  - apply groupByTrace_lookup.
  - by intros [_ ?]%groupByTrace_group.
  - apply groupByTrace_is_Some.
  - apply set_eq. intros t.
    by rewrite elem_of_dom, groupByTrace_is_Some, elem_of_list_to_set.
Qed.

(** X10. Grouping loses no span and repeats none: the groups, put one after
    the other in any order of visit, are a permutation of the batch. *)
Theorem groupByTrace_partition (spans : list sdktrace.ReadOnlySpan) :
  concat (map_to_list (groupByTrace spans)).*2 ≡ₚ spans.
Proof.
  induction spans as [|span spans IH] using rev_ind; [done|].
  rewrite groupByTrace_snoc.
  set (tid := trace.traceID (sdktrace.SpanContext span)).
  destruct (groupByTrace spans !! tid) as [g|] eqn:Hg; cbn [default].
  - assert (g ++ concat (map_to_list (delete tid (groupByTrace spans))).*2 ≡ₚ spans)
      as Hrest.
    { etrans; [|exact IH]. by rewrite <- (map_to_list_delete _ _ _ Hg). }
    rewrite <- insert_delete_eq.
    rewrite map_to_list_insert by apply lookup_delete_eq.
    cbn. etrans; [|apply Permutation_app_tail, Hrest].
    rewrite <- !app_assoc. apply Permutation_app_head, Permutation_app_comm.
  - rewrite map_to_list_insert by done. cbn.
    etrans; [|apply Permutation_cons_append]. by constructor.
Qed.

(** ** More on the export loop *)

Lemma filter_all {A} (P : A → Prop) `{∀ x, Decision (P x)} (l : list A) :
  (∀ x, x ∈ l → P x) → filter P l = l.
Proof.
  induction l as [|x l IH]; intros Hall; [done|].
  rewrite filter_cons_True by (apply Hall; left).
  f_equal. apply IH. intros y Hy. apply Hall. by right.
Qed.

Lemma saves_app (evs1 evs2 : list Event) : saves (evs1 ++ evs2) = saves evs1 ++ saves evs2.
Proof. apply omap_app. Qed.

Section ExportMore.
Context `{TimeConversion} {Store : Type} `{TraceStore Store}.
Implicit Types (ctx : context.Context) (w : World Store)
  (m : gmap trace.TraceID (list sdktrace.ReadOnlySpan)).

Lemma replay_app ctx (s : Store) calls1 calls2 :
  replay ctx s (calls1 ++ calls2) = replay ctx (replay ctx s calls1) calls2.
Proof. apply foldl_app. Qed.

(** What a run of the loop does, with or without an error at its end: it
    adds effects, its store is the one the calls of [Save] among them leave,
    and every such call has the name of a trace id of the visit and the
    document of its group. *)
Lemma exportLoop_run ctx m order w w' e :
  exportLoop ctx m order w = (w', e) →
  ∃ evs,
    log w' = log w ++ evs
    ∧ store w' = replay ctx (store w) (saves evs)
    ∧ Forall (λ c, ∃ tid g, tid ∈ order ∧ m !! tid = Some g
                            ∧ convertTrace g = Ok c.2
                            ∧ c.1 = trace.TraceID_String tid) (saves evs).
Proof.
  revert w. induction order as [|tid rest IH]; intros w Hrun.
  { cbn in Hrun. injection Hrun as <- <-. exists []. by rewrite app_nil_r. }
  visit_cases m tid ctx w.
  - rewrite (exportLoop_cancelled _ _ _ _ _ _ _ Hm Hctx) in Hrun.
    injection Hrun as <- <-. by exists [ECtxErr; ECtxErr].
  - rewrite (exportLoop_saves _ _ _ _ _ _ _ Hm Hctx Hconv) in Hrun.
    assert (Forall (λ c, ∃ tid0 g, tid0 ∈ tid :: rest ∧ m !! tid0 = Some g
                                   ∧ convertTrace g = Ok c.2
                                   ∧ c.1 = trace.TraceID_String tid0)
              (saves (groupEvents tid td))) as Hthis.
    { repeat constructor. exists tid, spans. split_and!; [left|done..]. }
    destruct (Save (store w) ctx (trace.TraceID_String tid) td) as [s' [err|]] eqn:Hsave.
    + injection Hrun as <- <-. exists (groupEvents tid td).
      split_and!; [done| |done]. cbn. by rewrite Hsave.
    + apply IH in Hrun as (evs & Hlog & Hstore & Hcalls). cbn in Hlog, Hstore.
      exists (groupEvents tid td ++ evs). split_and!.
      * by rewrite Hlog, <- app_assoc.
      * rewrite saves_app, replay_app, Hstore. cbn. by rewrite Hsave.
      * rewrite saves_app. apply Forall_app. split; [done|].
        eapply list.Forall_impl; [exact Hcalls|].
        intros c (tid0 & g & ? & ? & ? & ?). exists tid0, g. split_and!; [by right|done..].
  - rewrite (exportLoop_convert_fails _ _ _ _ _ _ _ Hm Hctx Hconv) in Hrun.
    injection Hrun as <- <-. by exists [ECtxErr; EConvertTrace tid].
  - rewrite exportLoop_skip in Hrun by done.
    apply IH in Hrun as (evs & Hlog & Hstore & Hcalls). exists evs. split_and!; [done..|].
    eapply list.Forall_impl; [exact Hcalls|].
    intros c (tid0 & g & ? & ? & ? & ?). exists tid0, g. split_and!; [by right|done..].
Qed.

(** The calls of [Save] of a run that ends without an error: one for every
    trace id of the visit that is a key, in the order of the visit. *)
Lemma exportLoop_success_saves ctx m order w w' :
  exportLoop ctx m order w = (w', None) →
  (saves (flat_map (visitEvents m) order)).*1
    = trace.TraceID_String <$> filter (λ t, is_Some (m !! t)) order.
Proof.
  revert w. induction order as [|tid rest IH]; intros w Hrun; [done|].
  cbn [flat_map]. rewrite saves_app, fmap_app. unfold visitEvents at 1.
  visit_cases m tid ctx w.
  - by rewrite (exportLoop_cancelled _ _ _ _ _ _ _ Hm Hctx) in Hrun.
  - rewrite (exportLoop_saves _ _ _ _ _ _ _ Hm Hctx Hconv) in Hrun.
    destruct (Save _ _ _ _) as [s' [err|]]; [done|].
    apply IH in Hrun. rewrite Hrun.
    by rewrite filter_cons_True by (by rewrite Hm).
  - by rewrite (exportLoop_convert_fails _ _ _ _ _ _ _ Hm Hctx Hconv) in Hrun.
  - rewrite exportLoop_skip in Hrun by done. apply IH in Hrun. rewrite Hrun.
    by rewrite filter_cons_False by (rewrite Hm; by intros []).
Qed.

(** X11. Whatever the outcome of an export call, its store is the store the
    calls of [Save] it made leave, in their order: the exporter touches the
    store through [Save] only, and a call without a save leaves the store as
    it was. *)
Theorem ExportSpans_store ctx (spans : list sdktrace.ReadOnlySpan) order w w' e :
  ExportSpans ctx spans order w = (w', e) →
  ∃ evs,
    log w' = log w ++ evs
    ∧ store w' = replay ctx (store w) (saves evs)
    ∧ (saves evs = [] → store w' = store w).
Proof.
  intros (evs & Hlog & Hstore & _)%exportLoop_run. exists evs.
  split_and!; [done..|]. intros Hnone. by rewrite Hstore, Hnone.
Qed.

(** X12. Every document an export call hands to [Save] is saved under the
    name of a trace id of the batch, and every span record in it is the
    conversion of a span of the batch with that trace id, stored under its
    own span id. *)
Theorem ExportSpans_saved_documents ctx (spans : list sdktrace.ReadOnlySpan)
    order w w' e :
  ExportSpans ctx spans order w = (w', e) →
  ∃ evs,
    log w' = log w ++ evs
    ∧ ∀ traceID td,
        (traceID, td) ∈ saves evs →
        (∃ tid, traceID = trace.TraceID_String tid
                ∧ tid ∈ (λ s, trace.traceID (sdktrace.SpanContext s)) <$> spans)
        ∧ ∀ k c,
            Spans td !! k = Some c →
            SpanData_SpanID c = k ∧ SpanData_TraceID c = traceID
            ∧ ∃ s, s ∈ spans ∧ c = convertSpan s.
Proof.
  intros (evs & Hlog & _ & Hcalls)%exportLoop_run. exists evs. split; [done|].
  intros traceID td Hin. rewrite list.Forall_forall in Hcalls.
  destruct (Hcalls _ Hin) as (tid & g & _ & Hg & Hconv & Hname).
  cbn in Hconv, Hname. subst traceID. split.
  - exists tid. split; [done|]. apply groupByTrace_is_Some. by rewrite Hg.
  - intros k c Hk. apply groupByTrace_group in Hg as [Hg _].
    pose proof (convertTrace_Spans_key _ _ _ _ Hconv Hk) as Hkey.
    rewrite (convertTrace_fill _ _ Hconv) in Hk.
    apply fill_lookup_Some in Hk as [Hk|(s & Hs & _ & ->)]; [done|].
    rewrite Hg in Hs. apply list_elem_of_filter in Hs as [Htid Hs].
    split_and!; [done| |by exists s]. cbn. by rewrite Htid.
Qed.

(** X13. An export call that returns no error has called [Save] once for
    every trace id of the batch and for nothing else, in the order of the
    visit, under names that are all different. *)
Theorem ExportSpans_saves_each_trace_once ctx (spans : list sdktrace.ReadOnlySpan)
    order w w' :
  rangeOrder (groupByTrace spans) order →
  ExportSpans ctx spans order w = (w', None) →
  ∃ evs,
    log w' = log w ++ evs
    ∧ (saves evs).*1 = trace.TraceID_String <$> order
    ∧ NoDup (saves evs).*1
    ∧ ∀ tid, tid ∈ order
             ↔ tid ∈ (λ s, trace.traceID (sdktrace.SpanContext s)) <$> spans.
Proof.
  unfold ExportSpans. intros Horder Hrun.
  exists (flat_map (visitEvents (groupByTrace spans)) order).
  assert ((saves (flat_map (visitEvents (groupByTrace spans)) order)).*1
          = trace.TraceID_String <$> order) as Hsaves.
  { rewrite (exportLoop_success_saves _ _ _ _ _ Hrun). f_equal.
    apply filter_all. intros tid Htid. by apply (rangeOrder_keys _ order tid Horder). }
  split_and!.
  - by apply (exportLoop_success ctx).
  - done.
  - rewrite Hsaves. apply NoDup_fmap_2; [|by eapply rangeOrder_NoDup].
    intros ??. apply TraceID_String_inj.
  - intros tid. by rewrite (rangeOrder_keys _ order tid Horder), groupByTrace_is_Some.
Qed.


(** X15. An export call on the empty batch does nothing and returns no
    error, even when the context is done: the context is asked only when a
    group is visited. *)
Theorem ExportSpans_empty ctx order w :
  ExportSpans ctx [] order w = (w, None).
Proof.
  unfold ExportSpans. cbn. induction order as [|tid rest IH]; [done|].
  by rewrite exportLoop_skip by apply lookup_empty.
Qed.

(** X16. When the context is done at the call and the batch is not empty,
    the call returns the error of the context after asking the context
    twice: no group is assembled, nothing is saved, the store is as it
    was. *)
Theorem ExportSpans_cancelled_at_call ctx (spans : list sdktrace.ReadOnlySpan)
    order w e :
  spans ≠ [] →
  rangeOrder (groupByTrace spans) order →
  context.Err ctx (length (log w)) = Some e →
  ExportSpans ctx spans order w
    = ({| store := store w; log := log w ++ [ECtxErr; ECtxErr] |}, Some e).
Proof.
  intros Hne Horder Hctx. unfold ExportSpans.
  destruct order as [|tid rest].
  - destruct spans as [|s spans]; [done|].
    assert (trace.traceID (sdktrace.SpanContext s) ∈ @nil trace.TraceID) as Hin.
    { apply (rangeOrder_keys _ _ _ Horder), groupByTrace_is_Some. cbn. left. }
    by apply elem_of_nil in Hin.
  - assert (is_Some (groupByTrace spans !! tid)) as [g Hg].
    { apply (rangeOrder_keys _ _ _ Horder). left. }
    by apply (exportLoop_cancelled _ _ _ _ _ g).
Qed.

(** X17. With a context that is never done, a store that accepts every
    document in the states it goes through, and groups that have at most
    one parentless span each, an export call returns no error, in every
    order of visit. *)
Theorem ExportSpans_succeeds ctx (spans : list sdktrace.ReadOnlySpan) order w
    (accepting : Store → Prop) :
  context.done ctx = None →
  accepting (store w) →
  (∀ s traceID td,
     accepting s →
     (Save s ctx traceID td).2 = None ∧ accepting (Save s ctx traceID td).1) →
  (∀ tid g, groupByTrace spans !! tid = Some g →
            (length (filter parentless g) ≤ 1)%nat) →
  (ExportSpans ctx spans order w).2 = None.
Proof.
  unfold ExportSpans. generalize (groupByTrace spans). intros m Hctx Hw Hsave Hgroups.
  revert w Hw. induction order as [|tid rest IH]; intros w Hw; [done|].
  assert (context.Err ctx (length (log w)) = None) as Hlive.
  { unfold context.Err. by rewrite Hctx. }
  destruct (m !! tid) as [g|] eqn:Hm; [|rewrite exportLoop_skip by done; by apply IH].
  assert (∃ td, convertTrace g = Ok td) as [td Hconv].
  { pose proof (Hgroups tid g Hm) as Hle.
    destruct (filter parentless g) as [|r [|??]] eqn:Hroots; [| |cbn in Hle; lia].
    - destruct (convertTraceLoop_no_root g emptyTraceData Hroots) as (td & ? & _). by exists td.
    - destruct (convertTraceLoop_one_root g emptyTraceData r Hroots eq_refl)
        as (td & ? & _). by exists td. }
  rewrite (exportLoop_saves _ _ _ _ _ _ _ Hm Hlive Hconv).
  destruct (Hsave (store w) (trace.TraceID_String tid) td Hw) as [Hok Hnext].
  destruct (Save _ _ _ _) as [s' [err|]]; [done|]. by apply IH.
Qed.
End ExportMore.

(** ** The Google AI model adapter *)

Section AdapterFacts.
Import googleai.
Context `{Payloads}.

(** [map] returns when the callback returns for every element. *)
Lemma mapArray_Returns {A B} (f : A → outcome B) (g : A → B) (array : list A) :
  (∀ x, x ∈ array → f x = Returns (g x)) → mapArray f array = Returns (g <$> array).
Proof.
  induction array as [|x rest IH]; intros Hall; [done|].
  cbn. rewrite (Hall x) by left. rewrite IH; [done|].
  intros y Hy. apply Hall. by right.
Qed.

(** [map] throws what the callback throws for the first element it throws
    for. *)
Lemma mapArray_Throws {A B} (f : A → outcome B) (g : A → B) (l1 l2 : list A) x message :
  (∀ y, y ∈ l1 → f y = Returns (g y)) →
  f x = Throws message →
  mapArray f (l1 ++ x :: l2) = Throws message.
Proof.
  induction l1 as [|y l1 IH]; intros Hall Hx; cbn.
  - by rewrite Hx.
  - rewrite (Hall y) by left. rewrite IH; [done| |done].
    intros z Hz. apply Hall. by right.
Qed.

Lemma mapArray_inv {A B} (f : A → outcome B) (array : list A) ys :
  mapArray f array = Returns ys → Forall2 (λ x y, f x = Returns y) array ys.
Proof.
  revert ys. induction array as [|x rest IH]; intros ys Hmap; cbn in Hmap.
  - injection Hmap as <-. constructor.
  - destruct (f x) as [y|] eqn:Hx; [|done].
    destruct (mapArray f rest) as [ys'|]; [|done].
    injection Hmap as <-. constructor; [done|by apply IH].
Qed.

(** X18. [toGeminiMessage] throws for the role "system", whatever the parts
    are; for another role it throws when a part has no text or an empty
    text; otherwise it returns the message with the role translated and the
    texts of the parts in their order. *)
Theorem toGeminiMessage_outcome (message : MessageData) :
  (role message = "system" →
   toGeminiMessage message = Throws "system role is not supported")
  ∧ (role message ≠ "system" →
     (∃ part, part ∈ content message ∧ truthy (text part) = false) →
     toGeminiMessage message = Throws "Only support text for the moment.")
  ∧ (role message ≠ "system" →
     (∀ part, part ∈ content message → truthy (text part) = true) →
     toGeminiMessage message
       = Returns {| gemini_role := geminiRoleOf (role message);
                    parts := textPart <$> content message |}).
Proof.
  unfold toGeminiMessage, toGeminiRole, geminiRoleOf. split_and!.
  - intros ->. by repeat case_decide.
  - intros Hrole (part & Hin & Hpart).
    assert (mapArray toGeminiPart (content message)
            = Throws "Only support text for the moment.") as ->.
    { clear Hrole. induction (content message) as [|p ps IH]; [by apply elem_of_nil in Hin|].
      cbn. unfold toGeminiPart at 1. destruct (truthy (text p)) eqn:Hp; [|done].
      apply elem_of_cons in Hin as [->|Hin]; [congruence|]. by rewrite IH. }
    repeat case_decide; congruence.
  - intros Hrole Hparts.
    rewrite (mapArray_Returns toGeminiPart textPart).
    + repeat case_decide; congruence.
    + intros part Hin. unfold toGeminiPart. by rewrite Hparts.
Qed.

(** X19. The parts that [toGeminiPart] returns go back through
    [fromGeminiPart]: the texts are those of the parts sent, and the other
    properties of the parts are gone. *)
Theorem fromGeminiPart_toGeminiPart (sent : list Part) (received : list GeminiPart) :
  mapArray toGeminiPart sent = Returns received →
  mapArray fromGeminiPart received
    = Returns ((λ part, {| text := text part; otherProperties := None |}) <$> sent)
  ∧ length received = length sent.
Proof.
  intros Hsent%mapArray_inv. split; [|by apply Forall2_length in Hsent].
  induction Hsent as [|part g sent received Hpart _ IH]; [done|].
  cbn. rewrite IH. unfold toGeminiPart in Hpart.
  destruct (truthy (text part)) eqn:Htext; [|done]. injection Hpart as <-.
  unfold fromGeminiPart. cbn. by rewrite Htext.
Qed.

Section Generate.
Variable client : ChatParams → list GeminiPart → outcome GeminiResponse.

(** X20. [generate] does not call the client when the request has no
    message or when a message cannot be converted: it throws "No messages
    provided." for the first, and for the second the error of the first
    message that cannot be converted. *)
Theorem generate_rejects_request (request : GenerateRequest) :
  (messages request = [] → generate client request = Throws "No messages provided.")
  ∧ (∀ l1 bad l2 message,
       messages request = l1 ++ bad :: l2 →
       (∀ m, m ∈ l1 → ∃ g, toGeminiMessage m = Returns g) →
       toGeminiMessage bad = Throws message →
       generate client request = Throws message).
Proof.
  unfold generate. split.
  - by intros ->.
  - intros l1 bad l2 message -> Hl1 Hbad.
    assert (mapArray toGeminiMessage (l1 ++ bad :: l2) = Throws message) as ->; [|done].
    induction l1 as [|m l1 IH]; cbn; [by rewrite Hbad|].
    destruct (Hl1 m) as [g ->]; [left|]. rewrite IH; [done|].
    intros m' Hm'. apply Hl1. by right.
Qed.

(** X21. When the messages are converted to [earlier ++ [lastMessage]], the
    client is called with [earlier] as the history of the chat and the parts
    of [lastMessage] as the message to send. An error of the client is
    thrown as it is; an answer with no candidate makes "No valid candidates
    returned."; otherwise the candidates are converted one by one. *)
Theorem generate_calls_client (request : GenerateRequest) earlier lastMessage :
  mapArray toGeminiMessage (messages request) = Returns (earlier ++ [lastMessage]) →
  generate client request
    = match client {| history := earlier;
                      generationConfig := generationConfigOf request |}
                   (parts lastMessage) with
      | Throws message => Throws message
      | Returns result =>
          match response_candidates result with
          | None | Some [] => Throws "No valid candidates returned."
          | Some cs =>
              match mapArray fromGeminiCandidate cs with
              | Throws message => Throws message
              | Returns converted =>
                  Returns {| response := converted; response_custom := result |}
              end
          end
      end.
Proof.
  intros Hconv. unfold generate. rewrite Hconv. cbn zeta.
  rewrite length_app. cbn [length].
  rewrite decide_False by lia.
  replace (length earlier + 1 - 1)%nat with (length earlier) by lia.
  rewrite take_app_length.
  by rewrite lookup_app_r, Nat.sub_diag by lia.
Qed.

(** X22. What [generate] returns, when it returns: as many candidates as the
    client answered, at least one, each with the role "model", parts that
    have a text, and a finish reason among "stop", "length", "blocked",
    "other" and "unknown". *)
Theorem generate_response (request : GenerateRequest) r :
  generate client request = Returns r →
  response r ≠ []
  ∧ (∃ cs, response_candidates (response_custom r) = Some cs
           ∧ length (response r) = length cs)
  ∧ Forall (λ c, role (message c) = "model"
                 ∧ Forall (λ part, truthy (text part) = true) (content (message c))
                 ∧ finishReason c ∈ ["stop"; "length"; "blocked"; "other"; "unknown"])
           (response r).
Proof.
  unfold generate.
  destruct (mapArray toGeminiMessage (messages request)) as [gs|]; [|done]. cbn zeta.
  case_decide; [done|].
  destruct (client _ _) as [result|]; [|done].
  destruct (response_candidates result) as [[|c cs]|] eqn:Hcs; [done| |done].
  destruct (mapArray fromGeminiCandidate (c :: cs)) as [converted|] eqn:Hmap; [|done].
  intros [= <-]. cbn. apply mapArray_inv in Hmap.
  split_and!.
  - intros ->. by apply Forall2_length in Hmap.
  - exists (c :: cs). split; [done|]. symmetry. by apply Forall2_length in Hmap.
  - clear Hcs. induction Hmap as [|c0 d cs0 ds Hc _ IH]; constructor; [|done].
    unfold fromGeminiCandidate in Hc.
    destruct (mapArray fromGeminiPart (parts (candidate_content c0))) as [ps|] eqn:Hps; [|done].
    injection Hc as <-. cbn. split_and!; [done| |].
    + apply mapArray_inv in Hps. clear -Hps.
      induction Hps as [|g p gs ps Hg _ IH]; constructor; [|done].
      unfold fromGeminiPart in Hg. destruct (truthy (gemini_text g)) eqn:Ht; [|done].
      by injection Hg as <-.
    + unfold fromGeminiFinishReason. repeat case_match; set_solver.
Qed.
End Generate.
End AdapterFacts.

(** ** The further properties on the sample spans *)

Section MoreSamples.
Import sample.
#[local] Existing Instance sampleTimeConversion.

Lemma attributesToMap_Permutation_witness :
  attributesToMap
    [ {| attribute.Key := "a"; attribute.Val := attribute.INT64 1 |};
      {| attribute.Key := "b"; attribute.Val := attribute.BOOL true |} ]
  = attributesToMap
      [ {| attribute.Key := "b"; attribute.Val := attribute.BOOL true |};
        {| attribute.Key := "a"; attribute.Val := attribute.INT64 1 |} ].
Proof.
  apply attributesToMap_Permutation.
  - apply (bool_decide_unpack _). exact I.
  - apply perm_swap.
Defined.

Lemma convertTrace_distinct_ids_witness :
  ∃ td, convertTrace rootAndChild = Ok td
        ∧ size (Spans td) = 2%nat
        ∧ Spans td !! spanKey childB = Some (convertSpan childB).
Proof.
  eassert (convertTrace rootAndChild = Ok _) as Hconv by reflexivity.
  eexists. split; [exact Hconv|].
  destruct (convertTrace_distinct_ids rootAndChild _ Hconv) as [Hsize Hall].
  assert (NoDup ((λ s, trace.spanID (sdktrace.SpanContext s)) <$> rootAndChild)) as Hnd.
  { apply (bool_decide_unpack _). exact I. }
  split; [by apply Hsize|]. apply Hall; [done|]. right. left.
Defined.

Lemma ExportSpans_store_witness :
  ∃ evs, log (ExportSpans context.Background batchD [T1; T2] emptyStore).1 = evs
         ∧ length (saves evs) = 1%nat
         ∧ store (ExportSpans context.Background batchD [T1; T2] emptyStore).1
           = replay context.Background (store emptyStore) (saves evs).
Proof.
  eassert (ExportSpans context.Background batchD [T1; T2] emptyStore = (_, _)) as Hrun
    by reflexivity.
  destruct (ExportSpans_store context.Background batchD [T1; T2] emptyStore _ _ Hrun)
    as (evs & Hlog & Hstore & _).
  exists evs. cbn [log emptyStore app] in Hlog. rewrite Hrun. cbn [fst].
  split; [exact Hlog|]. split; [|exact Hstore].
  rewrite <- Hlog. reflexivity.
Defined.

Lemma ExportSpans_saved_documents_witness :
  ∃ evs, log (ExportSpans context.Background batchE [T1; T2] emptyStore).1 = evs
         ∧ ∀ traceID td k c,
             (traceID, td) ∈ saves evs → Spans td !! k = Some c →
             SpanData_SpanID c = k ∧ SpanData_TraceID c = traceID.
Proof.
  eassert (ExportSpans context.Background batchE [T1; T2] emptyStore = (_, _)) as Hrun
    by reflexivity.
  destruct (ExportSpans_saved_documents context.Background batchE [T1; T2]
              emptyStore _ _ Hrun) as (evs & Hlog & Hdocs).
  exists evs. cbn [log emptyStore app] in Hlog. rewrite Hrun. cbn [fst].
  split; [exact Hlog|]. intros traceID td k c Hin Hk.
  destruct (Hdocs traceID td Hin) as [_ Hspans].
  destruct (Hspans k c Hk) as (? & ? & _). by split.
Defined.

Lemma ExportSpans_saves_each_trace_once_witness :
  rangeOrder (groupByTrace batchE) [T1; T2]
  ∧ ∃ evs, log (ExportSpans context.Background batchE [T1; T2] emptyStore).1 = evs
           ∧ (saves evs).*1 = [trace.TraceID_String T1; trace.TraceID_String T2].
Proof.
  assert (rangeOrder (groupByTrace batchE) [T1; T2]) as Horder
    by (apply (bool_decide_unpack _); exact I).
  split; [exact Horder|].
  eassert (ExportSpans context.Background batchE [T1; T2] emptyStore = (_, None)) as Hrun
    by reflexivity.
  destruct (ExportSpans_saves_each_trace_once context.Background batchE [T1; T2]
              emptyStore _ Horder Hrun) as (evs & Hlog & Hsaves & _).
  exists evs. cbn [log emptyStore app] in Hlog. rewrite Hrun. cbn [fst].
  split; [exact Hlog|exact Hsaves].
Defined.


Lemma ExportSpans_cancelled_at_call_witness :
  batchE ≠ []
  ∧ rangeOrder (groupByTrace batchE) [T2; T1]
  ∧ ExportSpans (cancelledAt 0) batchE [T2; T1] emptyStore
    = ({| store := store emptyStore; log := [ECtxErr; ECtxErr] |}, Some context_Canceled).
Proof.
  assert (batchE ≠ []) as Hne by done.
  assert (rangeOrder (groupByTrace batchE) [T2; T1]) as Horder
    by (apply (bool_decide_unpack _); exact I).
  split; [exact Hne|]. split; [exact Horder|].
  exact (ExportSpans_cancelled_at_call (cancelledAt 0) batchE [T2; T1] emptyStore
           context_Canceled Hne Horder eq_refl).
Defined.

Lemma ExportSpans_succeeds_witness :
  (ExportSpans context.Background batchE [T2; T1] emptyStore).2 = None.
Proof.
  apply (ExportSpans_succeeds context.Background batchE [T2; T1] emptyStore
           (λ s, refused s = [])).
  - reflexivity.
  - reflexivity.
  - intros s traceID td Hs. unfold Save, memStore_TraceStore.
    rewrite Hs. by rewrite decide_False by apply not_elem_of_nil.
  - intros tid g Hg.
    assert (tid ∈ [T1; T2]) as Htid.
    { apply (rangeOrder_keys (groupByTrace batchE) [T1; T2]);
        [apply (bool_decide_unpack _); exact I|by rewrite Hg]. }
    apply elem_of_cons in Htid as [->|Htid].
    { eassert (groupByTrace batchE !! T1 = Some _) as Hg' by reflexivity.
      rewrite Hg' in Hg. injection Hg as <-. vm_compute. lia. }
    apply elem_of_cons in Htid as [->|Htid].
    { eassert (groupByTrace batchE !! T2 = Some _) as Hg' by reflexivity.
      rewrite Hg' in Hg. injection Hg as <-. vm_compute. lia. }
    by apply elem_of_nil in Htid.
Defined.

Section AdapterSamples.
Import googleai googleai_sample.

Lemma fromGeminiPart_toGeminiPart_witness :
  ∃ received,
    mapArray toGeminiPart (content (say "user" "hello")) = Returns received
    ∧ mapArray fromGeminiPart received
      = Returns [ {| text := Some "hello"; otherProperties := None |} ].
Proof.
  eassert (mapArray toGeminiPart (content (say "user" "hello")) = Returns _) as Hsent
    by reflexivity.
  eexists. split; [exact Hsent|].
  exact (proj1 (fromGeminiPart_toGeminiPart _ _ Hsent)).
Defined.

Lemma generate_calls_client_witness :
  ∃ earlier lastMessage,
    mapArray toGeminiMessage (messages request) = Returns (earlier ++ [lastMessage])
    ∧ gemini_role <$> earlier = ["user"; "model"]
    ∧ gemini_role lastMessage = "function"
    ∧ ∃ r, generate echo request = Returns r ∧ length (response r) = 1%nat.
Proof.
  eassert (mapArray toGeminiMessage (messages request) = Returns ([_; _] ++ [_]))
    as Hconv by reflexivity.
  eexists _, _. split; [exact Hconv|]. split; [reflexivity|]. split; [reflexivity|].
  rewrite (generate_calls_client echo request _ _ Hconv). by eexists.
Defined.

Lemma generate_response_witness :
  ∃ r, generate echo request = Returns r
       ∧ Forall (λ c, role (message c) = "model") (response r).
Proof.
  eassert (generate echo request = Returns _) as Hrun by reflexivity.
  eexists. split; [exact Hrun|].
  destruct (generate_response echo request _ Hrun) as (_ & _ & Hall).
  eapply list.Forall_impl; [exact Hall|]. by intros c [? _].
Defined.
End AdapterSamples.
End MoreSamples.
